(** * ctools.torch_utils.network.nn_module: a shallow embedding

    The development follows [src/ctools/torch_utils/network/nn_module.py].
    Python integers are [Z]; tensor sizes and offsets are [nat]; a tensor is
    its shape together with its elements in logical row-major order (strides
    and storage sharing are abstracted, except for [binary_encode], whose
    in-place updates are run against an explicit store).  Exceptions are
    values of [exn] carried by the [result] monad. *)

From Stdlib Require Import ZArith QArith Lia.
From stdpp Require Import base list numbers strings gmap.

Local Open Scope nat_scope.

(** ** Exceptions and the error monad *)

Inductive exn : Type :=
  | ZeroDivisionError
  | AssertionError
  | ValueError
  | IndexError
  | RuntimeError (msg : string)
  | KeyError (msg : string)
  | InitError.

Inductive result (A : Type) : Type :=
  | Ok (a : A)
  | Raise (e : exn).
Arguments Ok {A} a.
Arguments Raise {A} e.

Definition rbind {A B} (r : result A) (k : A → result B) : result B :=
  match r with
  | Ok a => k a
  | Raise e => Raise e
  end.

#[global] Instance result_ret : MRet result := λ A a, Ok a.
#[global] Instance result_bind : MBind result := λ A B k r, rbind r k.
#[global] Instance result_fmap : FMap result := λ A B f r, rbind r (λ a, Ok (f a)).

Definition returns {A} (r : result A) : Prop := ∃ a, r = Ok a.

(** ** Tensors *)

Record tensor (A : Type) : Type := Tensor { shape : list nat; data : list A }.
Arguments Tensor {A} shape data.
Arguments shape {A} t.
Arguments data {A} t.

(** Number of elements of a shape. *)
Fixpoint numel (sh : list nat) : nat :=
  match sh with
  | [] => 1
  | d :: r => d * numel r
  end.

Definition wf {A} (t : tensor A) : Prop := length (data t) = numel (shape t).

(** Row-major offset of a multi-index, and the multi-index of an offset. *)
Fixpoint ravel (sh idx : list nat) : nat :=
  match sh, idx with
  | _ :: r, i :: js => i * numel r + ravel r js
  | _, _ => 0
  end.

Fixpoint unravel (sh : list nat) (k : nat) : list nat :=
  match sh with
  | [] => []
  | _ :: r => (k / numel r) :: unravel r (k mod numel r)
  end.

(** [x[idx]] *)
Definition get {A} (t : tensor A) (idx : list nat) : option A :=
  data t !! ravel (shape t) idx.

Definition in_bounds (idx sh : list nat) : Prop := Forall2 lt idx sh.

(** ** [Tensor.view]: size inference as in ATen's [infer_size] *)

(** One pass over the requested sizes: the product of the explicit sizes and
    whether a [-1] was seen. *)
Fixpoint infer_scan (sh : list Z) (newsize : Z) (infer : bool) : result (Z * bool) :=
  match sh with
  | [] => Ok (newsize, infer)
  | d :: r =>
      if (d =? -1)%Z then
        if infer then Raise (RuntimeError "only one dimension can be inferred")
        else infer_scan r newsize true
      else if (0 <=? d)%Z then infer_scan r (newsize * d)%Z infer
      else Raise (RuntimeError "invalid shape dimension")
  end.

Definition infer_size (sh : list Z) (n : nat) : result (list nat) :=
  '(newsize, infer) ← infer_scan sh 1%Z false;
  if (Z.of_nat n =? newsize)%Z
     || (infer && (0 <? newsize)%Z && (Z.of_nat n mod newsize =? 0)%Z)
  then
    if infer then
      if (newsize =? 0)%Z
      then Raise (RuntimeError "cannot reshape tensor of 0 elements: -1 is ambiguous")
      else Ok ((λ d, if (d =? -1)%Z then Z.to_nat (Z.of_nat n / newsize) else Z.to_nat d) <$> sh)
    else Ok (Z.to_nat <$> sh)
  else Raise (RuntimeError "shape is invalid for input of this size").

Definition view {A} (t : tensor A) (sh : list Z) : result (tensor A) :=
  s ← infer_size sh (numel (shape t));
  Ok (Tensor s (data t)).

(** ** [Tensor.permute] and [Tensor.contiguous] *)

(** Position of [p] in [dims]. *)
Fixpoint index_of (p : nat) (dims : list nat) : nat :=
  match dims with
  | [] => 0
  | q :: r => if (p =? q) then 0 else S (index_of p r)
  end.

(** [dims] names every axis of an [n]-dimensional tensor exactly once. *)
Definition is_axis_permutation (dims : list nat) (n : nat) : bool :=
  (length dims =? n) && forallb (λ p, bool_decide (p ∈ dims)) (seq 0 n).

(** The output of [permute] has [out.shape[j] = in.shape[dims[j]]]. *)
Definition permute_shape (dims sh : list nat) : list nat :=
  (λ p, nth p sh 0) <$> dims.

(** The input multi-index read by output multi-index [oidx]: input axis
    [dims[j]] is indexed by [oidx[j]]. *)
Definition permute_source (dims oidx : list nat) : list nat :=
  (λ p, nth (index_of p dims) oidx 0) <$> seq 0 (length dims).

Section Permute.
Context {A : Type} `{!Inhabited A}.

Definition permute (t : tensor A) (dims : list nat) : result (tensor A) :=
  if is_axis_permutation dims (length (shape t)) then
    let osh := permute_shape dims (shape t) in
    Ok (Tensor osh
          ((λ k, data t !!! ravel (shape t) (permute_source dims (unravel osh k)))
             <$> seq 0 (numel osh)))
  else Raise (RuntimeError "permute: dims do not match the tensor").

(** The logical contents do not change; only the memory layout does. *)
Definition contiguous (t : tensor A) : tensor A := t.

(** ** [ChannelShuffle] *)

Record ChannelShuffle : Type := { group_num : Z }.

Definition ChannelShuffle_forward (self : ChannelShuffle) (x : tensor A)
  : result (tensor A) :=
  match shape x with
  | [b; c; h; w] =>
      let g := group_num self in
      if (g =? 0)%Z then Raise ZeroDivisionError
      else if negb (Z.of_nat c mod g =? 0)%Z then Raise AssertionError
      else
        x1 ← view x [Z.of_nat b; g; (Z.of_nat c / g)%Z; Z.of_nat h; Z.of_nat w];
        x2 ← permute x1 [0; 2; 1; 3; 4];
        view (contiguous x2) [Z.of_nat b; Z.of_nat c; Z.of_nat h; Z.of_nat w]
  | _ => Raise ValueError
  end.
End Permute.

(** ** [one_hot] *)

Definition list_min (l : list Z) : Z := foldr Z.min (hd 0%Z l) l.
Definition list_max (l : list Z) : Z := foldr Z.max (hd 0%Z l) l.

(** A zero vector of length [n] with a one scattered at position [v]. *)
Definition scatter_one (n : nat) (v : Z) : list Z :=
  <[Z.to_nat v := 1%Z]> (replicate n 0%Z).

(** [torch.nn.functional.one_hot] on a CPU Long tensor (ATen's [one_hot]):
    an empty tensor needs a positive [num_classes]; class values must be
    non-negative and below [num_classes]; [-1] infers the number of classes. *)
Definition F_one_hot (self : tensor Z) (num_classes : Z) : result (tensor Z) :=
  if numel (shape self) =? 0 then
    if (num_classes <=? 0)%Z
    then Raise (RuntimeError "Can not infer total number of classes from empty tensor.")
    else Ok (Tensor (shape self ++ [Z.to_nat num_classes]) [])
  else if (list_min (data self) <? 0)%Z
  then Raise (RuntimeError "Class values must be non-negative.")
  else
    n ← (if (num_classes =? -1)%Z then Ok (list_max (data self) + 1)%Z
         else if (list_max (data self) <? num_classes)%Z then Ok num_classes
         else Raise (RuntimeError "Class values must be smaller than num_classes."));
    Ok (Tensor (shape self ++ [Z.to_nat n]) (data self ≫= scatter_one (Z.to_nat n))).

(** [Tensor.float()] on an integer tensor: every value converts exactly. *)
Definition Tensor_float (t : tensor Z) : tensor Q := Tensor (shape t) (inject_Z <$> data t).

Definition one_hot (val : tensor Z) (num : Z) (num_first : bool) : result (tensor Q) :=
  Tensor_float <$> F_one_hot val num.

(** The vector along the last axis (of size [n]) that belongs to the [k]-th
    element, in row-major order, of the tensor the axis was appended to. *)
Definition last_axis_vector {A} (n : nat) (t : tensor A) (k : nat) : list A :=
  take n (drop (k * n) (data t)).

(** ** [NearestUpsample] *)

Inductive interp_mode : Type :=
  | nearest | linear | bilinear | bicubic | trilinear | area.

Section Interpolate.
Context {A : Type}.
(** The ATen resampling kernels behind [F.interpolate], by mode and
    [align_corners]. *)
Variable upsample_kernel : interp_mode → bool → Q → tensor A → result (tensor A).

(** [torch.nn.functional.interpolate(input, scale_factor=..., mode=...,
    align_corners=...)]: the argument check of the Python wrapper, then the
    kernel. *)
Definition F_interpolate (input : tensor A) (scale_factor : Q) (mode : interp_mode)
    (align_corners : option bool) : result (tensor A) :=
  match mode with
  | nearest | area =>
      match align_corners with
      | Some _ => Raise ValueError
      | None => upsample_kernel mode false scale_factor input
      end
  | _ => upsample_kernel mode (default false align_corners) scale_factor input
  end.

Record NearestUpsample : Type := { scale_factor : Q }.

Definition NearestUpsample_forward (self : NearestUpsample) (x : tensor A)
  : result (tensor A) :=
  F_interpolate x (scale_factor self) nearest (Some false).

Record BilinearUpsample : Type := { bilinear_scale_factor : Q }.

Definition BilinearUpsample_forward (self : BilinearUpsample) (x : tensor A)
  : result (tensor A) :=
  F_interpolate x (bilinear_scale_factor self) bilinear (Some false).
End Interpolate.

(** ** [weight_init_] *)

Section WeightInit.
(** The weight tensor, as the state the initialisers update in place. *)
Variable W : Type.
(** Activation modules; [negative_slope a] is [Some s] when the module has
    that attribute. *)
Variable activation : Type.
Variable negative_slope : activation → option Q.
(** [torch.nn.init]'s samplers: the new contents of the weight, or [None]
    when torch rejects the tensor (the weight is then untouched). *)
Variable xavier_normal_ : W → option W.
Variable kaiming_normal_ : Q → W → option W.
Variable orthogonal_ : W → option W.

(** The outcome of a call and the weight after it. *)
Definition init_outcome : Type := result unit * W.

Definition run_init (f : W → option W) (weight : W) : init_outcome :=
  match f weight with
  | Some weight' => (Ok (), weight')
  | None => (Raise InitError, weight)
  end.

Definition xavier_init (weight : W) (_ : option activation) : init_outcome :=
  run_init xavier_normal_ weight.

Definition kaiming_init (weight : W) (act : option activation) : init_outcome :=
  match act with
  | None => (Raise AssertionError, weight)
  | Some a =>
      match negative_slope a with
      | Some s => run_init (kaiming_normal_ s) weight
      | None => run_init (kaiming_normal_ 0%Q) weight
      end
  end.

Definition orthogonal_init (weight : W) (_ : option activation) : init_outcome :=
  run_init orthogonal_ weight.

(** The keys of the dictionary. *)
Definition init_types : list string := ["xavier"; "kaiming"; "orthogonal"].

Definition init_type_dict : gmap string (W → option activation → init_outcome) :=
  <["xavier" := xavier_init]> (<["kaiming" := kaiming_init]> (<["orthogonal" := orthogonal_init]> ∅)).

Definition weight_init_ (weight : W) (init_type : string) (act : option activation)
  : init_outcome :=
  match init_type_dict !! init_type with
  | Some init => init weight act
  | None => (Raise (KeyError ("Invalid Value in init type: " +:+ init_type)), weight)
  end.
End WeightInit.

(** ** [binary_encode], run against a store of tensors *)

(** Tensors live in a store and are named by their location; a fresh tensor
    is appended, an in-place operation overwrites its slot. *)
Abbreviation loc := nat (only parsing).
Abbreviation store := (list (tensor Z)) (only parsing).

(** A computation: its outcome and the store it leaves. *)
Definition M (A : Type) : Type := store → result A * store.

Definition ret {A} (a : A) : M A := λ σ, (Ok a, σ).
Definition raise {A} (e : exn) : M A := λ σ, (Raise e, σ).
Definition bind {A B} (c : M A) (k : A → M B) : M B :=
  λ σ, match c σ with
       | (Ok a, σ') => k a σ'
       | (Raise e, σ') => (Raise e, σ')
       end.

Notation "'let!' x := c 'in' k" := (bind c (λ x, k))
  (at level 10, x name, c at level 100, k at level 200, only parsing).

Definition alloc (t : tensor Z) : M loc := λ σ, (Ok (length σ), σ ++ [t]).
Definition load (l : loc) : M (tensor Z) :=
  λ σ, match σ !! l with
       | Some t => (Ok t, σ)
       | None => (Raise (RuntimeError "no tensor at this location"), σ)
       end.
Definition overwrite (l : loc) (t : tensor Z) : M unit := λ σ, (Ok (), <[l := t]> σ).

(** [torch.clamp]: [min(max(v, lo), hi)]. *)
Definition clamp (lo hi v : Z) : Z := Z.min (Z.max v lo) hi.

(** [y.clamp(lo, hi)]: a new tensor. *)
Definition Tensor_clamp (y : loc) (lo hi : Z) : M loc :=
  let! t := load y in
  alloc (Tensor (shape t) (clamp lo hi <$> data t)).

Definition ones_like (x : loc) : M loc :=
  let! t := load x in alloc (Tensor (shape t) (replicate (length (data t)) 1%Z)).

Definition zeros_like (x : loc) : M loc :=
  let! t := load x in alloc (Tensor (shape t) (replicate (length (data t)) 0%Z)).

(** [torch.where(x >= num, one, zero)]: a new tensor. *)
Definition where_ge (x : loc) (num : Z) (one zero : loc) : M loc :=
  let! tx := load x in
  let! t1 := load one in
  let! t0 := load zero in
  alloc (Tensor (shape tx)
           ((λ '(v, (a, b)), if (num <=? v)%Z then a else b)
              <$> zip (data tx) (zip (data t1) (data t0)))).

(** [x -= bit * num]: the product is a temporary, the subtraction writes
    into [x] itself. *)
Definition isub_scaled (x bit : loc) (num : Z) : M unit :=
  let! tx := load x in
  let! tb := load bit in
  overwrite x (Tensor (shape tx) (zip_with Z.sub (data tx) ((λ b, b * num)%Z <$> data tb))).

(** [x.shape[0]] *)
Definition shape0 (x : loc) : M nat :=
  let! t := load x in
  match shape t with
  | d :: _ => ret d
  | [] => raise IndexError
  end.

(** The body of [for i in range(L)], over the remaining values of [i];
    [binary] is the list built so far. *)
Fixpoint encode_loop (x one zero : loc) (L : Z) (todo : list Z) (binary : list loc)
  : M (list loc) :=
  match todo with
  | [] => ret binary
  | i :: rest =>
      let num := Z.shiftl 1 (L - i - 1) in
      let! bit := where_ge x num one zero in
      let! _ := isub_scaled x bit num in
      encode_loop x one zero L rest (binary ++ [bit])
  end.

Fixpoint load_all (ls : list loc) : M (list (tensor Z)) :=
  match ls with
  | [] => ret []
  | l :: rest =>
      let! t := load l in
      let! ts := load_all rest in
      ret (t :: ts)
  end.

(** The contents of [torch.stack(ts, dim=1)] for tensors of shape
    [d0 :: rest]: for each index along axis 0, the slices of all tensors
    in turn. *)
Definition stack1_data (d0 : nat) (rest : list nat) (ts : list (tensor Z)) : list Z :=
  seq 0 d0 ≫= λ i, ts ≫= λ t, take (numel rest) (drop (i * numel rest) (data t)).

(** [torch.stack(tensors, dim=1)]: a new tensor. *)
Definition stack1 (ls : list loc) : M loc :=
  let! ts := load_all ls in
  match ts with
  | [] => raise (RuntimeError "stack expects a non-empty TensorList")
  | t :: _ =>
      match shape t with
      | [] => raise IndexError
      | d0 :: rest => alloc (Tensor (d0 :: length ts :: rest) (stack1_data d0 rest ts))
      end
  end.

(** [range(L)] *)
Definition range (L : Z) : list Z := Z.of_nat <$> seq 0 (Z.to_nat L).

(** The value of the double nearest to the integer [n >= 0] (53-bit
    significand, ties to even): what [float(n)] holds. *)
Definition float_of_int (n : Z) : Z :=
  let e := (Z.log2 n - 52)%Z in
  if (e <=? 0)%Z then n
  else
    let q := (n / 2 ^ e)%Z in
    let r := (n mod 2 ^ e)%Z in
    let half := (2 ^ (e - 1))%Z in
    let up := (half <? r)%Z || ((half =? r)%Z && Z.odd q) in
    ((if up then q + 1 else q) * 2 ^ e)%Z.

Section BinaryEncode.
(** [float_log2 d] is [int(log(d) / log(2.0))] for the double of value [d],
    as the C library computes it. *)
Variable float_log2 : Z → Z.

(** [int(math.log(max_val, 2))]: the integer is converted to a double first. *)
Definition int_math_log2 (max_val : Z) : Z := float_log2 (float_of_int max_val).

(** [L = int(math.log(max_val, 2)) + 1] *)
Definition code_width (max_val : Z) : Z := (int_math_log2 max_val + 1)%Z.

Definition binary_encode (y : loc) (max_val : Z) : M loc :=
  if negb (0 <? max_val)%Z then raise AssertionError
  else
    let! x := Tensor_clamp y 0 max_val in
    let! B := shape0 x in
    let L := code_width max_val in
    let! one := ones_like x in
    let! zero := zeros_like x in
    let! binary := encode_loop x one zero L (range L) [] in
    stack1 binary.
End BinaryEncode.

(** The bits of [v], most significant first, as the loop peels them off:
    one bit per power [2^(L-1)], ..., [2^0]. *)
Fixpoint peel_bits (L : nat) (v : Z) : list Z :=
  match L with
  | O => []
  | S L' =>
      let num := (2 ^ Z.of_nat L')%Z in
      let bit := if (num <=? v)%Z then 1%Z else 0%Z in
      bit :: peel_bits L' (v - bit * num)
  end.

(** The number a list of bits denotes, most significant bit first. *)
Fixpoint big_endian (bits : list Z) : Z :=
  match bits with
  | [] => 0%Z
  | b :: rest => (b * 2 ^ Z.of_nat (length rest) + big_endian rest)%Z
  end.

(** Row [i] of a tensor of shape [[B; L]]. *)
Definition row (L : nat) (t : tensor Z) (i : nat) : list Z := take L (drop (i * L) (data t)).

(** *** The loop of [binary_encode] on the contents of [x]

    What one pass does to the values: the bit against [num], and the value
    left after the subtraction. *)
Definition bit_of (num v : Z) : Z := if (num <=? v)%Z then 1%Z else 0%Z.
Definition loop_bits (num : Z) (xs : list Z) : list Z := bit_of num <$> xs.
Definition loop_rest (num : Z) (xs : list Z) : list Z := (λ v, v - bit_of num v * num)%Z <$> xs.

(** The contents of the tensors appended to [binary], in order. *)
Fixpoint columns (L : Z) (todo : list Z) (xs : list Z) : list (list Z) :=
  match todo with
  | [] => []
  | i :: rest =>
      let num := Z.shiftl 1 (L - i - 1) in
      loop_bits num xs :: columns L rest (loop_rest num xs)
  end.

(** The contents of [x] when the loop ends. *)
Fixpoint residue (L : Z) (todo : list Z) (xs : list Z) : list Z :=
  match todo with
  | [] => xs
  | i :: rest => residue L rest (loop_rest (Z.shiftl 1 (L - i - 1)) xs)
  end.

(** The bits the loop produces for one element [v], over the remaining
    values of [i]. *)
Fixpoint peel (L : Z) (todo : list Z) (v : Z) : list Z :=
  match todo with
  | [] => []
  | i :: rest =>
      let num := Z.shiftl 1 (L - i - 1) in
      bit_of num v :: peel L rest (v - bit_of num v * num)
  end.

(** A computation leaves the first [n] tensors of the store as they are,
    never shrinks the store, and returns values in [R]. *)
Definition keeps {A} (n : nat) (R : A → Prop) (c : M A) : Prop :=
  ∀ σ : store, n ≤ length σ →
    take n (c σ).2 = take n σ ∧ length σ ≤ length (c σ).2 ∧ ∀ a, (c σ).1 = Ok a → R a.

(** *** The index map of [ChannelShuffle] *)

(** The offset in the input that output offset [k] is read from, for [g]
    groups of [m] channels. *)
Definition shuffle_source (b g m h w k : nat) : nat :=
  ravel [b; g; m; h; w] (permute_source [0; 2; 1; 3; 4] (unravel [b; m; g; h; w] k)).

(** ** Layer blocks: [sequential_pack] and the block builders *)

(** The constructor arguments of torch's parametrised layers. *)
Inductive layer_spec : Type :=
  | Conv1d (in_channels out_channels kernel_size stride padding dilation groups : Z)
  | Conv2d (in_channels out_channels kernel_size stride padding dilation groups : Z)
  | ConvTranspose2d
      (in_channels out_channels kernel_size stride padding output_padding groups : Z)
  | Linear (in_features out_features : Z).

Section Blocks.
Variable W : Type.
Variable activation : Type.
Variable negative_slope : activation → option Q.
Variable xavier_normal_ : W → option W.
Variable kaiming_normal_ : Q → W → option W.
Variable orthogonal_ : W → option W.
(** Normalisation modules, and [build_normalization(norm_type, dim)(n)] of
    [.normalization]: the module, or the exception it raises. *)
Variable norm_module : Type.
Variable build_normalization : string → nat → Z → result norm_module.
(** The weight torch gives a new layer, or [None] when torch rejects the
    constructor arguments. *)
Variable new_weight : layer_spec → option W.

(** The modules a block is made of.  Activations and normalisations are
    not convolution layers. *)
Inductive module : Type :=
  | Layer (spec : layer_spec) (weight : W)
  | ReflectionPad2d (padding : Z)
  | ReplicationPad2d (padding : Z)
  | Normalization (m : norm_module)
  | Activation (a : activation)
  | Dropout (p : Q).

(** [nn.Sequential] with the attribute [out_channels], when it was set. *)
Record Sequential : Type := { seq_layers : list module; seq_out_channels : option Z }.

(** The two [isinstance] tests of the loop: [out_channels] of a
    [Conv2d], [ConvTranspose2d] or [Conv1d] item. *)
Definition conv_out_channels (item : module) : option Z :=
  match item with
  | Layer (Conv2d _ out _ _ _ _ _) _ => Some out
  | Layer (ConvTranspose2d _ out _ _ _ _ _) _ => Some out
  | Layer (Conv1d _ out _ _ _ _ _) _ => Some out
  | _ => None
  end.

(** [for item in layers: ... break] *)
Fixpoint first_out_channels (layers : list module) : option Z :=
  match layers with
  | [] => None
  | item :: rest =>
      match conv_out_channels item with
      | Some out => Some out
      | None => first_out_channels rest
      end
  end.

Definition sequential_pack (layers : list module) : Sequential :=
  {| seq_layers := layers; seq_out_channels := first_out_channels layers |}.

(** [block.append(nn.X(...)); weight_init_(block[-1].weight, init_type,
    activation)]: the new layer with its weight initialised. *)
Definition fresh_layer (spec : layer_spec) (init_type : string) (act : option activation)
  : result module :=
  match new_weight spec with
  | None => Raise ValueError
  | Some w =>
      match weight_init_ W activation negative_slope xavier_normal_ kaiming_normal_
              orthogonal_ w init_type act with
      | (Ok _, w') => Ok (Layer spec w')
      | (Raise e, _) => Raise e
      end
  end.

(** [if norm_type is not None: block.append(build_normalization(norm_type,
    dim=dim)(out_channels))] *)
Definition norm_layers (norm_type : option string) (dim : nat) (out_channels : Z)
  : result (list module) :=
  match norm_type with
  | None => Ok []
  | Some nt => m ← build_normalization nt dim out_channels; Ok [Normalization m]
  end.

(** [if activation is not None: block.append(activation)] *)
Definition act_layers (act : option activation) : list module :=
  match act with
  | Some a => [Activation a]
  | None => []
  end.

Definition conv1d_block (in_channels out_channels kernel_size stride padding dilation
    groups : Z) (init_type : string) (act : option activation) (norm_type : option string)
  : result Sequential :=
  conv ← fresh_layer (Conv1d in_channels out_channels kernel_size stride padding dilation
                        groups) init_type act;
  norm ← norm_layers norm_type 1 out_channels;
  Ok (sequential_pack ([conv] ++ norm ++ act_layers act)).

(** The padding layer of [conv2d_block] and the padding left to the
    convolution, for a [pad_type] that passed the assertion. *)
Definition pad_layers (pad_type : string) (padding : Z) : list module * Z :=
  if String.eqb pad_type "zero" then ([], padding)
  else if String.eqb pad_type "reflect" then ([ReflectionPad2d padding], 0%Z)
  else if String.eqb pad_type "replication" then ([ReplicationPad2d padding], 0%Z)
  else ([], padding).

Definition pad_types : list string := ["zero"; "reflect"; "replication"].

Definition conv2d_block (in_channels out_channels kernel_size stride padding dilation
    groups : Z) (init_type pad_type : string) (act : option activation)
    (norm_type : option string) : result Sequential :=
  if negb (bool_decide (pad_type ∈ pad_types)) then Raise AssertionError
  else
    let '(pad, padding') := pad_layers pad_type padding in
    conv ← fresh_layer (Conv2d in_channels out_channels kernel_size stride padding'
                          dilation groups) init_type act;
    norm ← norm_layers norm_type 2 out_channels;
    Ok (sequential_pack (pad ++ [conv] ++ norm ++ act_layers act)).

Definition deconv2d_block (in_channels out_channels kernel_size stride padding
    output_padding groups : Z) (init_type : string) (act : option activation)
    (norm_type : option string) : result Sequential :=
  conv ← fresh_layer (ConvTranspose2d in_channels out_channels kernel_size stride padding
                        output_padding groups) init_type act;
  norm ← norm_layers norm_type 2 out_channels;
  Ok (sequential_pack ([conv] ++ norm ++ act_layers act)).

(** [if use_dropout: block.append(nn.Dropout(dropout_probability))];
    [nn.Dropout] accepts probabilities in [[0, 1]] only. *)
Definition dropout_layers (use_dropout : bool) (dropout_probability : Q)
  : result (list module) :=
  if use_dropout then
    if Qle_bool 0 dropout_probability && Qle_bool dropout_probability 1
    then Ok [Dropout dropout_probability]
    else Raise ValueError
  else Ok [].

Definition fc_block (in_channels out_channels : Z) (init_type : string)
    (act : option activation) (norm_type : option string) (use_dropout : bool)
    (dropout_probability : Q) : result Sequential :=
  fc ← fresh_layer (Linear in_channels out_channels) init_type act;
  norm ← norm_layers norm_type 1 out_channels;
  drop ← dropout_layers use_dropout dropout_probability;
  Ok (sequential_pack ([fc] ++ norm ++ act_layers act ++ drop)).
End Blocks.

(** *** An instance of the builders, to run them

    Weights are numbers, the samplers keep the weight, torch accepts every
    layer and every normalisation. *)
Definition demo_conv1d_block :=
  conv1d_block nat unit (λ _, None) Some (λ _, Some) Some unit (λ _ _ _, Ok ()) (λ _, Some 0).
Definition demo_conv2d_block :=
  conv2d_block nat unit (λ _, None) Some (λ _, Some) Some unit (λ _ _ _, Ok ()) (λ _, Some 0).
Definition demo_deconv2d_block :=
  deconv2d_block nat unit (λ _, None) Some (λ _, Some) Some unit (λ _ _ _, Ok ()) (λ _, Some 0).
Definition demo_fc_block :=
  fc_block nat unit (λ _, None) Some (λ _, Some) Some unit (λ _ _ _, Ok ()) (λ _, Some 0).

Definition demo_reflect_block : Sequential nat unit unit :=
  {| seq_layers := [ReflectionPad2d nat unit unit 1; Layer nat unit unit (Conv2d 3 8 3 1 0 1 1) 0;
                    Normalization nat unit unit (); Activation nat unit unit ()];
     seq_out_channels := Some 8%Z |}.
Definition demo_conv1d_result : Sequential nat unit unit :=
  {| seq_layers := [Layer nat unit unit (Conv1d 3 8 3 1 0 1 1) 0];
     seq_out_channels := Some 8%Z |}.
Definition demo_deconv2d_result : Sequential nat unit unit :=
  {| seq_layers := [Layer nat unit unit (ConvTranspose2d 8 3 4 2 1 0 1) 0;
                    Activation nat unit unit ()];
     seq_out_channels := Some 3%Z |}.
Definition demo_fc_result : Sequential nat unit unit :=
  {| seq_layers := [Layer nat unit unit (Linear 32 16) 0; Normalization nat unit unit ();
                    Activation nat unit unit (); Dropout nat unit unit (1 # 2)];
     seq_out_channels := None |}.

(** *** The outcome of [binary_encode] *)

(** The call returns a tensor that was not in the store before, holding
    [out]. *)
Definition binary_encode_returns (float_log2 : Z → Z) (σ : store) (y : loc) (max_val : Z)
    (out : tensor Z) : Prop :=
  ∃ lo σ', binary_encode float_log2 y max_val σ = (Ok lo, σ')
           ∧ length σ ≤ lo ∧ σ' !! lo = Some out.

(** * Properties *)

(** ** Offsets and multi-indices *)

Lemma ravel_lt sh idx : in_bounds idx sh → ravel sh idx < numel sh.
Proof.
  intros H. induction H as [|i d js r Hid _ IH]; simpl; [lia|].
  nia.
Qed.

Lemma unravel_ravel sh idx : in_bounds idx sh → unravel sh (ravel sh idx) = idx.
Proof.
  intros H. induction H as [|i d js r Hid Hrest IH]; simpl; [done|].
  pose proof (ravel_lt _ _ Hrest) as Hlt.
  assert (Hq : (i * numel r + ravel r js) / numel r = i).
  { symmetry. apply (Nat.div_unique _ _ _ (ravel r js)); lia. }
  assert (Hr : (i * numel r + ravel r js) mod numel r = ravel r js).
  { symmetry. apply (Nat.mod_unique _ _ i); lia. }
  by rewrite Hq, Hr, IH.
Qed.

Lemma unravel_in_bounds sh k : k < numel sh → in_bounds (unravel sh k) sh.
Proof.
  revert k. induction sh as [|d r IH]; intros k Hk; simpl in *.
  - constructor.
  - assert (numel r ≠ 0) by (intros E; rewrite E in Hk; lia).
    constructor.
    + apply Nat.Div0.div_lt_upper_bound. lia.
    + apply IH. by apply Nat.mod_upper_bound.
Qed.

Lemma ravel_unravel sh k : k < numel sh → ravel sh (unravel sh k) = k.
Proof.
  revert k. induction sh as [|d r IH]; intros k Hk; simpl in *; [lia|].
  assert (numel r ≠ 0) by (intros E; rewrite E in Hk; lia).
  rewrite IH by (by apply Nat.mod_upper_bound).
  pose proof (Nat.div_mod_eq k (numel r)). lia.
Qed.

(** ** Size inference on explicit, non-negative sizes *)

Lemma infer_scan_sizes (s : list nat) (acc : Z) (infer : bool) :
  infer_scan (Z.of_nat <$> s) acc infer = Ok ((acc * Z.of_nat (numel s))%Z, infer).
Proof.
  revert acc. induction s as [|d r IH]; intros acc; simpl.
  - f_equal. f_equal. lia.
  - destruct (Z.eqb_spec (Z.of_nat d) (-1)) as [E|_]; [lia|].
    destruct (Z.leb_spec 0 (Z.of_nat d)) as [_|E]; [|lia].
    rewrite IH. f_equal. f_equal. lia.
Qed.

Lemma infer_size_explicit (s : list nat) (n : nat) :
  numel s = n → infer_size (Z.of_nat <$> s) n = Ok s.
Proof.
  intros <-. unfold infer_size. rewrite infer_scan_sizes. simpl.
  rewrite Z.mul_1_l, Z.eqb_refl. simpl. f_equal.
  rewrite <- list_fmap_compose. rewrite <- (list_fmap_id s) at 2.
  apply list_fmap_ext. intros _ d _. simpl. lia.
Qed.

Lemma view_explicit {A} (t : tensor A) (s : list nat) :
  numel s = numel (shape t) → view t (Z.of_nat <$> s) = Ok (Tensor s (data t)).
Proof. intros E. unfold view. by rewrite infer_size_explicit. Qed.

Lemma in_bounds_5 idx a b c d e :
  in_bounds idx [a; b; c; d; e] →
  ∃ i0 i1 i2 i3 i4, idx = [i0; i1; i2; i3; i4] ∧ i0 < a ∧ i1 < b ∧ i2 < c ∧ i3 < d ∧ i4 < e.
Proof.
  intros H. unfold in_bounds in H.
  repeat match goal with
         | H : Forall2 _ _ (_ :: _) |- _ =>
             apply Forall2_cons_inv_r in H as (? & ? & ? & H & ->)
         | H : Forall2 _ _ [] |- _ => apply Forall2_nil_inv_r in H as ->
         end.
  eauto 12.
Qed.

Lemma in_bounds_5_intro i0 i1 i2 i3 i4 a b c d e :
  i0 < a → i1 < b → i2 < c → i3 < d → i4 < e →
  in_bounds [i0; i1; i2; i3; i4] [a; b; c; d; e].
Proof. intros. repeat constructor; done. Qed.

Section ShuffleFacts.
Context {A : Type} `{!Inhabited A}.

Lemma shuffle_source_lt b g m h w k :
  k < numel [b; m; g; h; w] → shuffle_source b g m h w k < numel [b; g; m; h; w].
Proof.
  intros Hk. unfold shuffle_source.
  destruct (in_bounds_5 _ _ _ _ _ _ (unravel_in_bounds _ _ Hk))
    as (i0 & i1 & i2 & i3 & i4 & -> & ? & ? & ? & ? & ?).
  apply ravel_lt. by apply in_bounds_5_intro.
Qed.

Lemma shuffle_source_involutive b g m h w k :
  k < numel [b; g; m; h; w] →
  shuffle_source b g m h w (shuffle_source b m g h w k) = k.
Proof.
  intros Hk. unfold shuffle_source.
  destruct (in_bounds_5 _ _ _ _ _ _ (unravel_in_bounds _ _ Hk))
    as (i0 & i1 & i2 & i3 & i4 & E & ? & ? & ? & ? & ?).
  rewrite E. change (permute_source [0; 2; 1; 3; 4] [i0; i1; i2; i3; i4]) with [i0; i2; i1; i3; i4].
  rewrite unravel_ravel by (by apply in_bounds_5_intro).
  change (permute_source [0; 2; 1; 3; 4] [i0; i2; i1; i3; i4]) with [i0; i1; i2; i3; i4].
  rewrite <- E. by apply ravel_unravel.
Qed.

(** What [forward] computes when the group count is positive and divides
    the channel count [c = m * g]. *)
Lemma ChannelShuffle_forward_eq (x : tensor A) b g m h w :
  shape x = [b; m * g; h; w] → 0 < g →
  ChannelShuffle_forward {| group_num := Z.of_nat g |} x
  = Ok (Tensor [b; m * g; h; w]
          ((λ k, data x !!! shuffle_source b g m h w k) <$> seq 0 (numel [b; m; g; h; w]))).
Proof.
  intros Hsh Hg. unfold ChannelShuffle_forward. rewrite Hsh. simpl group_num.
  destruct (Z.eqb_spec (Z.of_nat g) 0) as [E|_]; [lia|].
  assert (Hmod : (Z.of_nat (m * g) mod Z.of_nat g = 0)%Z).
  { rewrite Nat2Z.inj_mul. apply Z.mod_mul. lia. }
  rewrite Hmod. simpl negb. cbv iota.
  assert (Hdiv : (Z.of_nat (m * g) / Z.of_nat g = Z.of_nat m)%Z).
  { rewrite Nat2Z.inj_mul. apply Z.div_mul. lia. }
  rewrite Hdiv.
  change [Z.of_nat b; Z.of_nat g; Z.of_nat m; Z.of_nat h; Z.of_nat w]
    with (Z.of_nat <$> [b; g; m; h; w]).
  rewrite view_explicit by (rewrite Hsh; simpl; lia).
  simpl. unfold contiguous.
  change [Z.of_nat b; Z.of_nat (m * g); Z.of_nat h; Z.of_nat w]
    with (Z.of_nat <$> [b; m * g; h; w]).
  rewrite view_explicit by (simpl; lia).
  reflexivity.
Qed.
End ShuffleFacts.

Section ShuffleClaims.
Context {A : Type} `{!Inhabited A}.

Lemma divides_nat (g : Z) (c : nat) :
  (0 < g)%Z → (g | Z.of_nat c)%Z →
  ∃ g' m, g = Z.of_nat g' ∧ 0 < g' ∧ c = m * g' ∧ Z.to_nat g = g' ∧ c / g' = m.
Proof.
  intros Hg [k Hk]. exists (Z.to_nat g), (Z.to_nat k).
  assert (Hk0 : (0 <= k)%Z) by nia.
  assert (c = Z.to_nat k * Z.to_nat g) as E by nia.
  repeat split; try lia.
  rewrite E. by rewrite Nat.div_mul by lia.
Qed.

Lemma shuffled_lookup (x : tensor A) b g m h w k :
  wf x → shape x = [b; m * g; h; w] → k < numel [b; m; g; h; w] →
  ((λ j, data x !!! shuffle_source b g m h w j) <$> seq 0 (numel [b; m; g; h; w])) !! k
  = data x !! shuffle_source b g m h w k.
Proof.
  intros Hwf Hsh Hk.
  rewrite list_lookup_fmap, lookup_seq_lt by done. simpl.
  symmetry. apply list_lookup_lookup_total_lt.
  rewrite Hwf, Hsh. pose proof (shuffle_source_lt b g m h w k Hk). simpl in *. lia.
Qed.

(** C2: with a positive group count [g] that divides the channel count [c],
    [forward] returns a tensor of the shape of its input in which channel
    [r * g + q] holds input channel [q * (c / g) + r], at every batch entry
    and spatial position; the index map mentions only [c] and [g]. *)
Theorem ChannelShuffle_forward_permutes (g : Z) (x : tensor A) (b c h w : nat) :
  shape x = [b; c; h; w] → wf x → (0 < g)%Z → (g | Z.of_nat c)%Z →
  ∃ out, ChannelShuffle_forward {| group_num := g |} x = Ok out
    ∧ shape out = [b; c; h; w] ∧ wf out
    ∧ ∀ n q r y z, n < b → q < Z.to_nat g → r < c / Z.to_nat g → y < h → z < w →
        get out [n; r * Z.to_nat g + q; y; z] = get x [n; q * (c / Z.to_nat g) + r; y; z]
        ∧ is_Some (get x [n; q * (c / Z.to_nat g) + r; y; z]).
Proof.
  intros Hsh Hwf Hg Hdiv.
  destruct (divides_nat g c Hg Hdiv) as (g' & m & -> & Hg' & -> & -> & ->).
  rewrite (ChannelShuffle_forward_eq x b g' m h w Hsh Hg').
  eexists. split; [reflexivity|].
  split; [reflexivity|]. split.
  { unfold wf. simpl. rewrite length_fmap, length_seq. lia. }
  intros n q r y z Hn Hq Hr Hy Hz. unfold get.
  cbn [shape data]. rewrite Hsh.
  assert (E1 : ravel [b; m * g'; h; w] [n; r * g' + q; y; z] = ravel [b; m; g'; h; w] [n; r; q; y; z]).
  { simpl. nia. }
  assert (E2 : ravel [b; m * g'; h; w] [n; q * m + r; y; z] = ravel [b; g'; m; h; w] [n; q; r; y; z]).
  { simpl. nia. }
  assert (Hin : in_bounds [n; r; q; y; z] [b; m; g'; h; w]) by (by apply in_bounds_5_intro).
  assert (Hsrc : shuffle_source b g' m h w (ravel [b; m; g'; h; w] [n; r; q; y; z])
                 = ravel [b; g'; m; h; w] [n; q; r; y; z]).
  { unfold shuffle_source. by rewrite unravel_ravel. }
  rewrite E1, E2, (shuffled_lookup x b g' m h w) by (done || by apply ravel_lt).
  rewrite Hsrc. split; [done|].
  apply lookup_lt_is_Some. rewrite Hwf, Hsh.
  pose proof (ravel_lt [b; g'; m; h; w] [n; q; r; y; z]
                (in_bounds_5_intro _ _ _ _ _ _ _ _ _ _ Hn Hq Hr Hy Hz)) as Hlt.
  simpl in *. lia.
Qed.

End ShuffleClaims.

Lemma ChannelShuffle_forward_permutes_witness :
  ∃ out, ChannelShuffle_forward {| group_num := 2 |} (Tensor [1; 6; 1; 1] [10; 11; 12; 13; 14; 15]%Z) = Ok out
    ∧ shape out = [1; 6; 1; 1] ∧ wf out
    ∧ ∀ n q r y z, n < 1 → q < Z.to_nat 2 → r < 6 / Z.to_nat 2 → y < 1 → z < 1 →
        get out [n; r * Z.to_nat 2 + q; y; z]
        = get (Tensor [1; 6; 1; 1] [10; 11; 12; 13; 14; 15]%Z) [n; q * (6 / Z.to_nat 2) + r; y; z]
        ∧ is_Some (get (Tensor [1; 6; 1; 1] [10; 11; 12; 13; 14; 15]%Z) [n; q * (6 / Z.to_nat 2) + r; y; z]).
Proof.
  apply (ChannelShuffle_forward_permutes 2 (Tensor [1; 6; 1; 1] [10; 11; 12; 13; 14; 15]%Z) 1 6 1 1).
  - reflexivity.
  - reflexivity.
  - lia.
  - exists 3%Z. reflexivity.
Defined.

Section ShuffleErrors.
Context {A : Type} `{!Inhabited A}.

Lemma ChannelShuffle_forward_zero_group (x : tensor A) b c h w :
  shape x = [b; c; h; w] →
  ChannelShuffle_forward {| group_num := 0 |} x = Raise ZeroDivisionError.
Proof. intros Hsh. unfold ChannelShuffle_forward. by rewrite Hsh. Qed.

Lemma ChannelShuffle_forward_not_dividing (g : Z) (x : tensor A) b c h w :
  shape x = [b; c; h; w] → g ≠ 0%Z → ¬ (g | Z.of_nat c)%Z →
  ChannelShuffle_forward {| group_num := g |} x = Raise AssertionError.
Proof.
  intros Hsh Hg Hnd. unfold ChannelShuffle_forward. rewrite Hsh. simpl group_num.
  destruct (Z.eqb_spec g 0) as [E|_]; [done|].
  destruct (Z.eqb_spec (Z.of_nat c mod g) 0) as [E|_]; [|done].
  exfalso. apply Hnd. by apply Z.mod_divide.
Qed.

Lemma shuffled_lookup_total b g m h w (dat : list A) k :
  k < numel [b; m; g; h; w] →
  ((λ j, dat !!! shuffle_source b g m h w j) <$> seq 0 (numel [b; m; g; h; w])) !!! k
  = dat !!! shuffle_source b g m h w k.
Proof.
  intros Hk. apply list_lookup_total_correct.
  by rewrite list_lookup_fmap, lookup_seq_lt.
Qed.

(** C6, for a positive group count: [forward] raises the [AssertionError]
    exactly when [g] does not divide the channel count, and returns
    otherwise. *)
Theorem ChannelShuffle_forward_assertion (g : Z) (x : tensor A) (b c h w : nat) :
  shape x = [b; c; h; w] → (0 < g)%Z →
  (ChannelShuffle_forward {| group_num := g |} x = Raise AssertionError
     ↔ ¬ (g | Z.of_nat c)%Z)
  ∧ ((g | Z.of_nat c)%Z → returns (ChannelShuffle_forward {| group_num := g |} x)).
Proof.
  intros Hsh Hg.
  assert (Hret : (g | Z.of_nat c)%Z → returns (ChannelShuffle_forward {| group_num := g |} x)).
  { intros Hdiv.
    destruct (divides_nat g c Hg Hdiv) as (g' & m & -> & Hg' & -> & _ & _).
    rewrite (ChannelShuffle_forward_eq x b g' m h w Hsh Hg'). by eexists. }
  split; [split|done].
  - intros Hraise Hdiv. destruct (Hret Hdiv) as [out Hout]. congruence.
  - intros Hnd. apply (ChannelShuffle_forward_not_dividing g x b c h w); [done|lia|done].
Qed.

(** C9, for a positive group count and a positive channel count: shuffling
    with [g] groups and then with [c // g] groups gives the input back. *)
Theorem ChannelShuffle_round_trip (g : Z) (x : tensor A) (b c h w : nat) :
  shape x = [b; c; h; w] → wf x → (0 < g)%Z → 0 < c → (g | Z.of_nat c)%Z →
  ChannelShuffle_forward {| group_num := g |} x
    ≫= ChannelShuffle_forward {| group_num := (Z.of_nat c / g)%Z |}
  = Ok x.
Proof.
  intros Hsh Hwf Hg Hc Hdiv.
  destruct (divides_nat g c Hg Hdiv) as (g' & m & -> & Hg' & -> & _ & _).
  assert (Hm : 0 < m) by nia.
  rewrite (ChannelShuffle_forward_eq x b g' m h w Hsh Hg').
  assert (Hq : (Z.of_nat (m * g') / Z.of_nat g' = Z.of_nat m)%Z).
  { rewrite Nat2Z.inj_mul. apply Z.div_mul. lia. }
  rewrite Hq. change (Ok ?t ≫= ?f) with (f t).
  rewrite (ChannelShuffle_forward_eq _ b m g' h w)
    by (done || (cbn [shape]; by rewrite (Nat.mul_comm g' m))).
  destruct x as [sh dat]. simpl in Hsh, Hwf. unfold wf in Hwf. simpl in Hwf. subst sh.
  cbn [data]. f_equal. f_equal; [by rewrite (Nat.mul_comm g' m)|].
  apply list_eq. intros k.
  destruct (decide (k < numel [b; g'; m; h; w])) as [Hk|Hk].
  - rewrite list_lookup_fmap, lookup_seq_lt by done. simpl option_map.
    cbn [fmap option_fmap option_map].
    pose proof (shuffle_source_lt b m g' h w k Hk) as Hlt.
    rewrite Nat.add_0_l.
    rewrite (shuffled_lookup_total b g' m h w dat _ Hlt).
    rewrite shuffle_source_involutive by done.
    symmetry. apply list_lookup_lookup_total_lt. rewrite Hwf. simpl in *. lia.
  - rewrite !lookup_ge_None_2; [done| rewrite Hwf; simpl in *; lia |].
    rewrite length_fmap, length_seq. simpl in *. lia.
Qed.
End ShuffleErrors.

Lemma ChannelShuffle_forward_assertion_witness :
  (ChannelShuffle_forward {| group_num := 4 |} (Tensor [1; 6; 1; 1] [10; 11; 12; 13; 14; 15]%Z)
     = Raise AssertionError ↔ ¬ (4 | Z.of_nat 6)%Z)
  ∧ ((4 | Z.of_nat 6)%Z →
     returns (ChannelShuffle_forward {| group_num := 4 |} (Tensor [1; 6; 1; 1] [10; 11; 12; 13; 14; 15]%Z))).
Proof.
  apply (ChannelShuffle_forward_assertion 4 (Tensor [1; 6; 1; 1] [10; 11; 12; 13; 14; 15]%Z) 1 6 1 1).
  - reflexivity.
  - lia.
Defined.

Lemma ChannelShuffle_round_trip_witness :
  ChannelShuffle_forward {| group_num := 2 |} (Tensor [1; 6; 1; 1] [10; 11; 12; 13; 14; 15]%Z)
    ≫= ChannelShuffle_forward {| group_num := (Z.of_nat 6 / 2)%Z |}
  = Ok (Tensor [1; 6; 1; 1] [10; 11; 12; 13; 14; 15]%Z).
Proof.
  apply (ChannelShuffle_round_trip 2 (Tensor [1; 6; 1; 1] [10; 11; 12; 13; 14; 15]%Z) 1 6 1 1).
  - reflexivity.
  - reflexivity.
  - lia.
  - lia.
  - exists 3%Z. reflexivity.
Defined.

(** C2 as stated fails for a negative group count: [-2] divides [4], and
    [view] refuses the sizes [(1, -2, -2, 1, 1)]. *)
Lemma ChannelShuffle_negative_group_raises :
  (-2 | Z.of_nat 4)%Z
  ∧ ChannelShuffle_forward {| group_num := -2 |} (Tensor [1; 4; 1; 1] [10; 11; 12; 13]%Z)
    = Raise (RuntimeError "invalid shape dimension").
Proof. split; [by exists (-2)%Z | reflexivity]. Qed.

(** C6 as stated fails outside the positive group counts: [-1] divides [2]
    and [forward] raises in [view]; [0] does not divide [4] and the
    exception is a [ZeroDivisionError]. *)
Lemma ChannelShuffle_other_exceptions :
  ((-1 | Z.of_nat 2)%Z
   ∧ ChannelShuffle_forward {| group_num := -1 |} (Tensor [1; 2; 1; 1] [10; 11]%Z)
     = Raise (RuntimeError "invalid shape dimension"))
  ∧ (¬ (0 | Z.of_nat 4)%Z
     ∧ ChannelShuffle_forward {| group_num := 0 |} (Tensor [1; 4; 1; 1] [10; 11; 12; 13]%Z)
       = Raise ZeroDivisionError).
Proof.
  repeat split; try reflexivity.
  - by exists (-2)%Z.
  - intros [k Hk]. lia.
Qed.

(** C9 as stated fails for an empty channel axis: [1] divides [0], the
    first shuffle returns, and the second one has group count [0 // 1 = 0]. *)
Lemma ChannelShuffle_round_trip_no_channels :
  (1 | Z.of_nat 0)%Z
  ∧ ChannelShuffle_forward {| group_num := 1 |} (Tensor [1; 0; 1; 1] ([] : list Z))
      ≫= ChannelShuffle_forward {| group_num := (Z.of_nat 0 / 1)%Z |}
    = Raise ZeroDivisionError.
Proof. split; [by exists 0%Z | reflexivity]. Qed.

Section ShuffleNegative.
Context {A : Type} `{!Inhabited A}.

Lemma infer_size_negative_group (g : Z) (b c h w : nat) :
  (g < 0)%Z →
  ∃ msg, infer_size [Z.of_nat b; g; (Z.of_nat c `div` g)%Z; Z.of_nat h; Z.of_nat w]
           (numel [b; c; h; w]) = Raise (RuntimeError msg).
Proof.
  intros Hg. unfold infer_size.
  change [Z.of_nat b; g; (Z.of_nat c `div` g)%Z; Z.of_nat h; Z.of_nat w]
    with (Z.of_nat b :: g :: (Z.of_nat c `div` g)%Z :: (Z.of_nat <$> [h; w])).
  cbn [infer_scan].
  destruct (Z.eqb_spec (Z.of_nat b) (-1)) as [E|_]; [lia|].
  destruct (Z.leb_spec 0 (Z.of_nat b)) as [_|E]; [|lia].
  destruct (Z.eqb_spec g (-1)) as [->|Hg1].
  - destruct (Z.eqb_spec (Z.of_nat c `div` (-1)) (-1)) as [_|Hc1]; [by eexists|].
    destruct (Z.leb_spec 0 (Z.of_nat c `div` (-1))) as [Hc0|_]; [|by eexists].
    assert (c = 0) as -> by (Z.div_mod_to_equations; lia).
    rewrite infer_scan_sizes. simpl.
    change (Z.of_nat 0 `div` (-1))%Z with 0%Z. rewrite Nat.mul_0_r.
    change (Z.of_nat 0) with 0%Z. rewrite Z.mul_0_r, Z.mul_0_l. simpl. by eexists.
  - destruct (Z.leb_spec 0 g) as [E|_]; [lia|by eexists].
Qed.

End ShuffleNegative.


Example shuffle_6_by_2 :
  ChannelShuffle_forward {| group_num := 2 |} (Tensor [1; 6; 1; 1] [10; 11; 12; 13; 14; 15]%Z)
  = Ok (Tensor [1; 6; 1; 1] [10; 13; 11; 14; 12; 15]%Z).
Proof. reflexivity. Qed.

(** ** Lists cut into equal chunks *)

Lemma numel_app (s1 s2 : list nat) : numel (s1 ++ s2) = numel s1 * numel s2.
Proof. induction s1 as [|d r IH]; simpl; [lia|]. rewrite IH. lia. Qed.

Lemma length_bind_uniform {A B} (f : A → list B) (n : nat) (l : list A) :
  (∀ a, a ∈ l → length (f a) = n) → length (l ≫= f) = length l * n.
Proof.
  induction l as [|a r IH]; intros Hf; [done|].
  rewrite bind_cons, length_app, IH, Hf; [simpl; lia | left | ].
  intros a' Ha'. apply Hf. by right.
Qed.

Lemma chunk_of_bind {A B} (f : A → list B) (n : nat) (l : list A) (k : nat) (a : A) :
  (∀ a, a ∈ l → length (f a) = n) → l !! k = Some a →
  take n (drop (k * n) (l ≫= f)) = f a.
Proof.
  revert k. induction l as [|a0 r IH]; intros k Hf Hk; [done|].
  assert (Hlen : length (f a0) = n) by (apply Hf; left).
  rewrite bind_cons. destruct k as [|k].
  - injection Hk as ->. rewrite Nat.mul_0_l, drop_0. by rewrite take_app_length'.
  - replace (S k * n) with (length (f a0) + k * n) by lia.
    rewrite drop_app_add'; [|done].
    apply IH; [|done]. intros a' Ha'. apply Hf. by right.
Qed.

(** ** [one_hot] *)

Lemma length_scatter_one n v : length (scatter_one n v) = n.
Proof. unfold scatter_one. by rewrite length_insert, length_replicate. Qed.

Lemma scatter_one_lookup n v j :
  (0 ≤ v)%Z → Z.to_nat v < n → j < n →
  scatter_one n v !! j = Some (if decide (j = Z.to_nat v) then 1%Z else 0%Z).
Proof.
  intros Hv Hvn Hj. unfold scatter_one.
  destruct (decide (j = Z.to_nat v)) as [->|Hne].
  - apply list_lookup_insert_eq. by rewrite length_replicate.
  - rewrite list_lookup_insert_ne by done. by apply lookup_replicate_2.
Qed.

Lemma foldr_min_ge (lo base : Z) (l : list Z) :
  (lo ≤ base)%Z → Forall (λ v, (lo ≤ v)%Z) l → (lo ≤ foldr Z.min base l)%Z.
Proof. intros Hb Hl. induction Hl; simpl; lia. Qed.

Lemma foldr_max_le (hi base : Z) (l : list Z) :
  (base ≤ hi)%Z → Forall (λ v, (v ≤ hi)%Z) l → (foldr Z.max base l ≤ hi)%Z.
Proof. intros Hb Hl. induction Hl; simpl; lia. Qed.

Lemma F_one_hot_in_range (val : tensor Z) (num : Z) :
  wf val → (0 < num)%Z → Forall (λ v, (0 ≤ v ≤ num - 1)%Z) (data val) →
  F_one_hot val num
  = Ok (Tensor (shape val ++ [Z.to_nat num]) (data val ≫= scatter_one (Z.to_nat num))).
Proof.
  intros Hwf Hnum Hall. unfold F_one_hot.
  destruct (Nat.eqb_spec (numel (shape val)) 0) as [E|Hne].
  - destruct (Z.leb_spec num 0) as [?|_]; [lia|].
    unfold wf in Hwf. rewrite E in Hwf. apply nil_length_inv in Hwf. by rewrite Hwf.
  - destruct (data val) as [|v0 r] eqn:Ed.
    { unfold wf in Hwf. rewrite Ed in Hwf. simpl in Hwf. lia. }
    assert (Hv0 : (0 ≤ v0 ≤ num - 1)%Z) by (by inversion Hall).
    assert (Hmin : (0 ≤ list_min (v0 :: r))%Z).
    { apply foldr_min_ge; [simpl; lia|]. eapply Forall_impl; [exact Hall|]. simpl. lia. }
    assert (Hmax : (list_max (v0 :: r) ≤ num - 1)%Z).
    { apply foldr_max_le; [simpl; lia|]. eapply Forall_impl; [exact Hall|]. simpl. lia. }
    destruct (Z.ltb_spec (list_min (v0 :: r)) 0) as [?|_]; [lia|].
    destruct (Z.eqb_spec num (-1)) as [?|_]; [lia|].
    destruct (Z.ltb_spec (list_max (v0 :: r)) num) as [_|?]; [|lia].
    reflexivity.
Qed.

(** C3: for class values in [[0, num-1]], [one_hot] appends an axis of
    size [num], and the vector of every element is [1] at the element's
    value and [0] elsewhere. *)
Theorem one_hot_single_bit (val : tensor Z) (num : Z) (num_first : bool) :
  wf val → (0 < num)%Z → Forall (λ v, (0 ≤ v ≤ num - 1)%Z) (data val) →
  ∃ out, one_hot val num num_first = Ok out
    ∧ shape out = shape val ++ [Z.to_nat num]
    ∧ wf out
    ∧ ∀ k v, data val !! k = Some v →
        length (last_axis_vector (Z.to_nat num) out k) = Z.to_nat num
        ∧ ∀ j, j < Z.to_nat num →
            last_axis_vector (Z.to_nat num) out k !! j
            = Some (if decide (j = Z.to_nat v) then 1%Q else 0%Q).
Proof.
  intros Hwf Hnum Hall. unfold one_hot. rewrite F_one_hot_in_range by done.
  eexists. split; [reflexivity|]. split; [reflexivity|].
  set (n := Z.to_nat num).
  assert (Hlen : ∀ a, a ∈ data val → length (scatter_one n a) = n)
    by (intros; apply length_scatter_one).
  split.
  { unfold wf, Tensor_float. simpl. rewrite length_fmap, numel_app.
    rewrite (length_bind_uniform _ n) by done. rewrite Hwf. simpl. lia. }
  intros k v Hk. unfold last_axis_vector, Tensor_float. cbn [data].
  rewrite <- fmap_drop, <- fmap_take, (chunk_of_bind _ n _ k v) by done.
  rewrite length_fmap, length_scatter_one. split; [done|].
  intros j Hj. rewrite list_lookup_fmap.
  assert (Hv : (0 ≤ v ≤ num - 1)%Z).
  { rewrite Forall_forall in Hall. apply Hall. by eapply list_elem_of_lookup_2. }
  rewrite scatter_one_lookup by lia. simpl. by destruct (decide (j = Z.to_nat v)).
Qed.

Lemma one_hot_single_bit_witness :
  ∃ out, one_hot (Tensor [2; 2] [2; 0; 1; 2]%Z) 3 false = Ok out
    ∧ shape out = [2; 2] ++ [Z.to_nat 3]
    ∧ wf out
    ∧ ∀ k v, [2; 0; 1; 2]%Z !! k = Some v →
        length (last_axis_vector (Z.to_nat 3) out k) = Z.to_nat 3
        ∧ ∀ j, j < Z.to_nat 3 →
            last_axis_vector (Z.to_nat 3) out k !! j
            = Some (if decide (j = Z.to_nat v) then 1%Q else 0%Q).
Proof.
  apply (one_hot_single_bit (Tensor [2; 2] [2; 0; 1; 2]%Z) 3 false).
  - reflexivity.
  - lia.
  - repeat constructor; lia.
Defined.

(** C8: [num_first] plays no part: both values give the same outcome, and
    a returned tensor has the shape of [val] with one axis appended. *)
Theorem one_hot_ignores_num_first (val : tensor Z) (num : Z) :
  one_hot val num true = one_hot val num false
  ∧ match one_hot val num true with
    | Ok out => ∃ n, shape out = shape val ++ [n] ∧ ((0 < num)%Z → n = Z.to_nat num)
    | Raise _ => True
    end.
Proof.
  split; [reflexivity|].
  unfold one_hot, F_one_hot.
  destruct (numel (shape val) =? 0).
  - destruct (Z.leb_spec num 0); simpl; [done|]. eexists. split; [done|done].
  - destruct (list_min (data val) <? 0)%Z; [done|].
    destruct (Z.eqb_spec num (-1)) as [->|Hn]; simpl.
    + eexists. split; [done|lia].
    + destruct (list_max (data val) <? num)%Z; simpl; [|done]. eexists. split; done.
Qed.

Example one_hot_docstring_num_first :
  one_hot (Tensor [2; 2] [2; 2; 2; 2]%Z) 3 true
  = Ok (Tensor [2; 2; 3] [0; 0; 1; 0; 0; 1; 0; 0; 1; 0; 0; 1]%Q).
Proof. reflexivity. Qed.

(** ** [NearestUpsample] *)

(** C4: [forward] passes [align_corners=False] together with
    [mode='nearest'], which [F.interpolate] rejects before it looks at the
    input: every call raises a [ValueError], whatever the kernels compute. *)
Theorem NearestUpsample_forward_raises {A : Type}
    (upsample_kernel : interp_mode → bool → Q → tensor A → result (tensor A))
    (self : NearestUpsample) (x : tensor A) :
  NearestUpsample_forward upsample_kernel self x = Raise ValueError.
Proof. reflexivity. Qed.

(** The sibling class passes the same flag with a mode that accepts it. *)
Lemma BilinearUpsample_forward_runs_kernel {A : Type}
    (upsample_kernel : interp_mode → bool → Q → tensor A → result (tensor A))
    (self : BilinearUpsample) (x : tensor A) :
  BilinearUpsample_forward upsample_kernel self x
  = upsample_kernel bilinear false (bilinear_scale_factor self) x.
Proof. reflexivity. Qed.

(** Without [align_corners], the nearest mode reaches its kernel. *)
Lemma F_interpolate_nearest_default {A : Type}
    (upsample_kernel : interp_mode → bool → Q → tensor A → result (tensor A))
    (s : Q) (x : tensor A) :
  F_interpolate upsample_kernel x s nearest None = upsample_kernel nearest false s x.
Proof. reflexivity. Qed.

(** ** [weight_init_] *)

Section WeightInitFacts.
Context {W activation : Type}.
Variable negative_slope : activation → option Q.
Variable xavier_normal_ : W → option W.
Variable kaiming_normal_ : Q → W → option W.
Variable orthogonal_ : W → option W.

Local Abbreviation weight_init := (weight_init_ W activation negative_slope
                                 xavier_normal_ kaiming_normal_ orthogonal_).
Local Abbreviation dict := (init_type_dict W activation negative_slope
                          xavier_normal_ kaiming_normal_ orthogonal_).

Lemma init_type_dict_lookup (init_type : string) :
  dict !! init_type = None ↔ init_type ∉ init_types.
Proof.
  unfold init_type_dict, init_types.
  rewrite !lookup_insert_None, lookup_empty.
  rewrite !not_elem_of_cons. split.
  - intros (((_ & ?) & ?) & ?). repeat split; try done. apply not_elem_of_nil.
  - intros (? & ? & ? & _). repeat split; done.
Qed.

Lemma run_init_not_key_error (f : W → option W) (weight : W) (msg : string) :
  (run_init W f weight).1 ≠ Raise (KeyError msg).
Proof. unfold run_init. by destruct (f weight). Qed.

Lemma weight_init_xavier weight act :
  weight_init weight "xavier" act = run_init W xavier_normal_ weight.
Proof. unfold weight_init_, init_type_dict. by rewrite lookup_insert_eq. Qed.

Lemma weight_init_kaiming weight act :
  weight_init weight "kaiming" act
  = kaiming_init W activation negative_slope kaiming_normal_ weight act.
Proof.
  unfold weight_init_, init_type_dict.
  rewrite lookup_insert_ne by done. by rewrite lookup_insert_eq.
Qed.

Lemma weight_init_orthogonal weight act :
  weight_init weight "orthogonal" act = run_init W orthogonal_ weight.
Proof.
  unfold weight_init_, init_type_dict.
  rewrite !lookup_insert_ne by done. by rewrite lookup_insert_eq.
Qed.

Lemma weight_init_valid_no_key_error weight init_type act msg :
  init_type ∈ init_types → (weight_init weight init_type act).1 ≠ Raise (KeyError msg).
Proof.
  unfold init_types. rewrite !elem_of_cons, elem_of_nil.
  intros [->|[->|[->|[]]]].
  - rewrite weight_init_xavier. apply run_init_not_key_error.
  - rewrite weight_init_kaiming. unfold kaiming_init. destruct act as [a|]; [|done].
    destruct (negative_slope a); apply run_init_not_key_error.
  - rewrite weight_init_orthogonal. apply run_init_not_key_error.
Qed.

(** C5, for the [KeyError]: it is raised exactly for an [init_type] outside
    the three names, it carries that name, and the weight is as it was;
    ["kaiming"] without an activation fails its assertion instead, the
    weight untouched as well. *)
Theorem weight_init_key_error (weight : W) (init_type : string) (act : option activation) :
  ((∃ msg, (weight_init weight init_type act).1 = Raise (KeyError msg))
     ↔ init_type ∉ init_types)
  ∧ (init_type ∉ init_types →
     weight_init weight init_type act
     = (Raise (KeyError ("Invalid Value in init type: " +:+ init_type)), weight))
  ∧ weight_init weight "kaiming" None = (Raise AssertionError, weight).
Proof.
  assert (Hinv : init_type ∉ init_types →
                 weight_init weight init_type act
                 = (Raise (KeyError ("Invalid Value in init type: " +:+ init_type)), weight)).
  { intros Hn. apply init_type_dict_lookup in Hn. unfold weight_init_. by rewrite Hn. }
  split; [split|split; [done|by rewrite weight_init_kaiming]].
  - intros [msg Hmsg] Hin. by eapply weight_init_valid_no_key_error.
  - intros Hn. rewrite (Hinv Hn). by eexists.
Qed.
End WeightInitFacts.

Lemma weight_init_key_error_witness :
  ("he" ∉ init_types)
  ∧ weight_init_ nat unit (λ _, None) Some (λ _, Some) Some 7 "he" None
    = (Raise (KeyError ("Invalid Value in init type: " +:+ "he")), 7).
Proof.
  assert (Hn : "he" ∉ init_types).
  { unfold init_types. rewrite !not_elem_of_cons.
    repeat split; try done. apply not_elem_of_nil. }
  split; [exact Hn|].
  exact (proj1 (proj2 (weight_init_key_error (λ _ : unit, None) Some (λ _, Some) Some
                         7 "he" None)) Hn).
Defined.

(** C5 as stated fails: ["kaiming"] is one of the three names, and the call
    raises when no activation is given. *)
Lemma weight_init_kaiming_needs_activation :
  ("kaiming" ∈ init_types)
  ∧ weight_init_ nat unit (λ _, None) Some (λ _, Some) Some 7 "kaiming" None
    = (Raise AssertionError, 7).
Proof. split; [|reflexivity]. unfold init_types. right. left. Qed.

(** ** Running [binary_encode] *)

Lemma bind_ok {A B} (c : M A) (k : A → M B) (σ σ' : store) (a : A) :
  c σ = (Ok a, σ') → bind c k σ = k a σ'.
Proof. intros E. unfold bind. by rewrite E. Qed.

Lemma bind_raise {A B} (c : M A) (k : A → M B) (σ σ' : store) (e : exn) :
  c σ = (Raise e, σ') → bind c k σ = (Raise e, σ').
Proof. intros E. unfold bind. by rewrite E. Qed.

Lemma load_ok (σ : store) (l : loc) (t : tensor Z) :
  σ !! l = Some t → load l σ = (Ok t, σ).
Proof. intros E. unfold load. by rewrite E. Qed.

Lemma where_select (num : Z) (xs : list Z) :
  (λ '(v, (a, b)), if (num <=? v)%Z then a else b)
    <$> zip xs (zip (replicate (length xs) 1%Z) (replicate (length xs) 0%Z))
  = loop_bits num xs.
Proof. induction xs as [|v r IH]; [done|]. simpl. f_equal. exact IH. Qed.

Lemma sub_scaled (num : Z) (xs : list Z) :
  zip_with Z.sub xs ((λ b, b * num)%Z <$> loop_bits num xs) = loop_rest num xs.
Proof. induction xs as [|v r IH]; [done|]. simpl. f_equal. exact IH. Qed.

Lemma where_ge_ok (σ : store) (x one zero : loc) (num : Z) sh xs :
  σ !! x = Some (Tensor sh xs) →
  σ !! one = Some (Tensor sh (replicate (length xs) 1%Z)) →
  σ !! zero = Some (Tensor sh (replicate (length xs) 0%Z)) →
  where_ge x num one zero σ = (Ok (length σ), σ ++ [Tensor sh (loop_bits num xs)]).
Proof.
  intros Hx H1 H0. unfold where_ge.
  rewrite (bind_ok _ _ _ _ _ (load_ok _ _ _ Hx)).
  rewrite (bind_ok _ _ _ _ _ (load_ok _ _ _ H1)).
  rewrite (bind_ok _ _ _ _ _ (load_ok _ _ _ H0)).
  unfold alloc. cbn [shape data]. by rewrite where_select.
Qed.

Lemma isub_scaled_ok (σ : store) (x bit : loc) (num : Z) sh sh' xs :
  σ !! x = Some (Tensor sh xs) →
  σ !! bit = Some (Tensor sh' (loop_bits num xs)) →
  isub_scaled x bit num σ = (Ok (), <[x := Tensor sh (loop_rest num xs)]> σ).
Proof.
  intros Hx Hb. unfold isub_scaled.
  rewrite (bind_ok _ _ _ _ _ (load_ok _ _ _ Hx)).
  rewrite (bind_ok _ _ _ _ _ (load_ok _ _ _ Hb)).
  unfold overwrite. cbn [shape data]. by rewrite sub_scaled.
Qed.

Lemma length_loop_rest num xs : length (loop_rest num xs) = length xs.
Proof. unfold loop_rest. by rewrite length_fmap. Qed.

Lemma length_columns L todo xs : length (columns L todo xs) = length todo.
Proof. revert xs. induction todo as [|i r IH]; intros xs; simpl; [done|]. by rewrite IH. Qed.

(** The loop leaves every tensor but [x] as it was, writes the residue
    into [x], and appends one bit tensor per iteration. *)
Lemma encode_loop_ok (x one zero : loc) (L : Z) sh (todo : list Z) :
  ∀ (σ : store) (xs : list Z) (binary : list loc),
    x ≠ one → x ≠ zero →
    σ !! x = Some (Tensor sh xs) →
    σ !! one = Some (Tensor sh (replicate (length xs) 1%Z)) →
    σ !! zero = Some (Tensor sh (replicate (length xs) 0%Z)) →
    encode_loop x one zero L todo binary σ
    = (Ok (binary ++ seq (length σ) (length todo)),
       <[x := Tensor sh (residue L todo xs)]> σ ++ (Tensor sh <$> columns L todo xs)).
Proof.
  induction todo as [|i rest IH]; intros σ xs binary Hx1 Hx0 Hx H1 H0.
  - cbn [encode_loop columns residue length seq]. unfold ret.
    rewrite fmap_nil, !app_nil_r. by rewrite list_insert_id.
  - cbn [encode_loop columns residue length seq fmap list_fmap].
    set (num := Z.shiftl 1 (L - i - 1)).
    assert (Hxlt : x < length σ) by (by eapply lookup_lt_Some).
    rewrite (bind_ok _ _ _ _ _ (where_ge_ok σ x one zero num sh xs Hx H1 H0)).
    rewrite (bind_ok _ _ (σ ++ [Tensor sh (loop_bits num xs)])
               (<[x := Tensor sh (loop_rest num xs)]> (σ ++ [Tensor sh (loop_bits num xs)])) ()).
    2:{ apply (isub_scaled_ok _ _ _ _ sh sh).
        - by rewrite lookup_app_l.
        - rewrite lookup_app_r by lia. by rewrite Nat.sub_diag. }
    rewrite insert_app_l by done.
    rewrite (IH _ (loop_rest num xs)); try done.
    + rewrite length_app, length_insert. simpl.
      rewrite <- !(assoc_L (++)), Nat.add_1_r.
      rewrite insert_app_l by (by rewrite length_insert).
      rewrite list_insert_insert_eq. by rewrite <- (assoc_L (++)).
    + rewrite lookup_app_l by (by rewrite length_insert).
      by apply list_lookup_insert_eq.
    + rewrite length_loop_rest.
      rewrite lookup_app_l by (rewrite length_insert; by eapply lookup_lt_Some).
      by rewrite list_lookup_insert_ne.
    + rewrite length_loop_rest.
      rewrite lookup_app_l by (rewrite length_insert; by eapply lookup_lt_Some).
      by rewrite list_lookup_insert_ne.
Qed.

Lemma load_all_ok (σ : store) (ts tail : list (tensor Z)) :
  load_all (seq (length σ) (length ts)) (σ ++ ts ++ tail) = (Ok ts, σ ++ ts ++ tail).
Proof.
  revert σ. induction ts as [|t r IH]; intros σ; [done|].
  cbn [length seq load_all].
  rewrite (bind_ok _ _ _ (σ ++ (t :: r) ++ tail) t).
  2:{ apply load_ok. rewrite lookup_app_r by lia. by rewrite Nat.sub_diag. }
  specialize (IH (σ ++ [t])). rewrite length_app in IH. simpl in IH.
  rewrite Nat.add_1_r in IH. rewrite <- (assoc_L (++)) in IH. simpl in IH.
  simpl. rewrite (bind_ok _ _ _ _ _ IH). done.
Qed.

(** ** The frame of [binary_encode] *)

Lemma keeps_ret {A} n (R : A → Prop) (a : A) : R a → keeps n R (ret a).
Proof. intros Ha σ Hn. simpl. repeat split; [done|]. by intros ? [= <-]. Qed.

Lemma keeps_raise {A} n (R : A → Prop) (e : exn) : keeps n R (raise e).
Proof. intros σ Hn. simpl. repeat split; done. Qed.

Lemma keeps_bind {A B} n (R : A → Prop) (R' : B → Prop) (c : M A) (k : A → M B) :
  keeps n R c → (∀ a, R a → keeps n R' (k a)) → keeps n R' (bind c k).
Proof.
  intros Hc Hk σ Hn. destruct (Hc σ Hn) as (Ht & Hl & HR). unfold bind.
  destruct (c σ) as [[a|e] σ'] eqn:E; simpl in *.
  - destruct (Hk a (HR a eq_refl) σ' ltac:(lia)) as (Ht' & Hl' & HR').
    split; [congruence|]. split; [lia|done].
  - repeat split; done.
Qed.

Lemma keeps_weaken {A} n (R R' : A → Prop) (c : M A) :
  keeps n R c → (∀ a, R a → R' a) → keeps n R' c.
Proof.
  intros Hc HR σ Hn. destruct (Hc σ Hn) as (Ht & Hl & Ha).
  repeat split; [done..|]. intros a E. by apply HR, Ha.
Qed.

Lemma keeps_alloc n (t : tensor Z) : keeps n (λ l, n ≤ l) (alloc t).
Proof.
  intros σ Hn. unfold alloc. simpl. rewrite length_app. simpl.
  split; [by rewrite take_app_le|]. split; [lia|]. intros a [= <-]. done.
Qed.

Lemma keeps_load n (l : loc) : keeps n (λ _, True) (load l).
Proof. intros σ Hn. unfold load. destruct (σ !! l); simpl; repeat split; done. Qed.

Lemma keeps_overwrite n (l : loc) (t : tensor Z) :
  n ≤ l → keeps n (λ _, True) (overwrite l t).
Proof.
  intros Hl σ Hn. unfold overwrite. simpl. rewrite length_insert.
  split; [by rewrite take_insert_ge|done].
Qed.

Lemma keeps_Tensor_clamp n y lo hi : keeps n (λ l, n ≤ l) (Tensor_clamp y lo hi).
Proof.
  unfold Tensor_clamp. eapply keeps_bind; [apply keeps_load|].
  intros t _. apply keeps_alloc.
Qed.

Lemma keeps_ones_like n x : keeps n (λ l, n ≤ l) (ones_like x).
Proof.
  unfold ones_like. eapply keeps_bind; [apply keeps_load|].
  intros t _. apply keeps_alloc.
Qed.

Lemma keeps_zeros_like n x : keeps n (λ l, n ≤ l) (zeros_like x).
Proof.
  unfold zeros_like. eapply keeps_bind; [apply keeps_load|].
  intros t _. apply keeps_alloc.
Qed.

Lemma keeps_where_ge n x num one zero : keeps n (λ l, n ≤ l) (where_ge x num one zero).
Proof.
  unfold where_ge. repeat (eapply keeps_bind; [apply keeps_load|]; intros ? _).
  apply keeps_alloc.
Qed.

Lemma keeps_isub_scaled n x bit num : n ≤ x → keeps n (λ _, True) (isub_scaled x bit num).
Proof.
  intros Hx. unfold isub_scaled.
  repeat (eapply keeps_bind; [apply keeps_load|]; intros ? _).
  by apply keeps_overwrite.
Qed.

Lemma keeps_shape0 n x : keeps n (λ _, True) (shape0 x).
Proof.
  unfold shape0. eapply keeps_bind; [apply keeps_load|]. intros t _.
  destruct (shape t); [apply keeps_raise | by apply keeps_ret].
Qed.

Lemma keeps_encode_loop n x one zero L todo binary :
  n ≤ x → keeps n (λ _, True) (encode_loop x one zero L todo binary).
Proof.
  intros Hx. revert binary. induction todo as [|i rest IH]; intros binary.
  - by apply keeps_ret.
  - cbn [encode_loop]. eapply keeps_bind; [apply keeps_where_ge|]. intros bit _.
    eapply keeps_bind; [by apply keeps_isub_scaled|]. intros _ _. apply IH.
Qed.

Lemma keeps_load_all n ls : keeps n (λ _, True) (load_all ls).
Proof.
  induction ls as [|l rest IH]; [by apply keeps_ret|].
  cbn [load_all]. eapply keeps_bind; [apply keeps_load|]. intros t _.
  eapply keeps_bind; [apply IH|]. intros ts _. by apply keeps_ret.
Qed.

Lemma keeps_stack1 n ls : keeps n (λ _, True) (stack1 ls).
Proof.
  unfold stack1. eapply keeps_bind; [apply keeps_load_all|]. intros ts _.
  destruct ts as [|t r]; [apply keeps_raise|].
  destruct (shape t); [apply keeps_raise|].
  eapply keeps_weaken; [apply keeps_alloc|done].
Qed.

Lemma keeps_binary_encode (float_log2 : Z → Z) n y max_val :
  keeps n (λ _, True) (binary_encode float_log2 y max_val).
Proof.
  unfold binary_encode. destruct (negb (0 <? max_val)%Z); [apply keeps_raise|].
  eapply keeps_bind; [apply keeps_Tensor_clamp|]. intros x Hx. simpl in Hx.
  eapply keeps_bind; [apply keeps_shape0|]. intros B _.
  eapply keeps_bind; [apply keeps_ones_like|]. intros one _.
  eapply keeps_bind; [apply keeps_zeros_like|]. intros zero _.
  eapply keeps_bind; [by apply keeps_encode_loop|]. intros binary _.
  apply keeps_stack1.
Qed.

(** C10: whatever the outcome of the call, the tensor [y] (and every other
    tensor that was in the store) holds the values it held before. *)
Theorem binary_encode_keeps_input (float_log2 : Z → Z) (σ : store) (y : loc)
    (max_val : Z) (ty : tensor Z) :
  σ !! y = Some ty → (0 < max_val)%Z →
  (binary_encode float_log2 y max_val σ).2 !! y = Some ty
  ∧ ∀ l t, σ !! l = Some t → (binary_encode float_log2 y max_val σ).2 !! l = Some t.
Proof.
  intros Hy _.
  assert (Hall : ∀ l t, σ !! l = Some t →
                        (binary_encode float_log2 y max_val σ).2 !! l = Some t).
  { intros l t Hl.
    destruct (keeps_binary_encode float_log2 (length σ) y max_val σ (le_n _)) as (Ht & _ & _).
    rewrite firstn_all in Ht.
    rewrite <- (lookup_take_lt _ (length σ)) by (by eapply lookup_lt_Some).
    by rewrite Ht. }
  split; [by apply Hall|done].
Qed.

Lemma binary_encode_keeps_input_witness :
  ([Tensor [2] [3; 2]%Z] : store) !! 0 = Some (Tensor [2] [3; 2]%Z) ∧
  ((binary_encode Z.log2 0 8 [Tensor [2] [3; 2]%Z]).2 !! 0 = Some (Tensor [2] [3; 2]%Z)
   ∧ ∀ l t, ([Tensor [2] [3; 2]%Z] : store) !! l = Some t →
            (binary_encode Z.log2 0 8 [Tensor [2] [3; 2]%Z]).2 !! l = Some t).
Proof.
  split; [reflexivity|].
  apply (binary_encode_keeps_input Z.log2 [Tensor [2] [3; 2]%Z] 0 8 (Tensor [2] [3; 2]%Z)).
  - reflexivity.
  - lia.
Defined.

(** ** What [binary_encode] returns *)

Lemma alloc_ok (σ : store) (t : tensor Z) : alloc t σ = (Ok (length σ), σ ++ [t]).
Proof. reflexivity. Qed.

Lemma lookup_fresh (σ : store) (t : tensor Z) (tail : store) :
  (σ ++ t :: tail) !! length σ = Some t.
Proof. rewrite lookup_app_r by lia. by rewrite Nat.sub_diag. Qed.

Lemma length_range L : length (range L) = Z.to_nat L.
Proof. unfold range. by rewrite length_fmap, length_seq. Qed.

(** The run of [binary_encode] on a tensor with at least one axis, when the
    loop runs at least once. *)
Lemma binary_encode_ok (float_log2 : Z → Z) (σ : store) (y : loc) (max_val : Z)
    (d0 : nat) (rest : list nat) (ys : list Z) :
  σ !! y = Some (Tensor (d0 :: rest) ys) → (0 < max_val)%Z →
  (0 < code_width float_log2 max_val)%Z →
  let L := code_width float_log2 max_val in
  let xs := clamp 0 max_val <$> ys in
  let cols := Tensor (d0 :: rest) <$> columns L (range L) xs in
  binary_encode float_log2 y max_val σ
  = (Ok (length σ + 3 + Z.to_nat L),
     σ ++ [Tensor (d0 :: rest) (residue L (range L) xs);
           Tensor (d0 :: rest) (replicate (length xs) 1%Z);
           Tensor (d0 :: rest) (replicate (length xs) 0%Z)]
       ++ cols
       ++ [Tensor (d0 :: Z.to_nat L :: rest) (stack1_data d0 rest cols)]).
Proof.
  intros Hy Hmax HL L xs cols. unfold binary_encode.
  destruct (Z.ltb_spec 0 max_val) as [_|?]; [|lia]. cbn [negb].
  fold L. set (sh := d0 :: rest) in *.
  set (X := Tensor sh xs).
  set (One := Tensor sh (replicate (length xs) 1%Z)).
  set (Zero := Tensor sh (replicate (length xs) 0%Z)).
  (* x = y.clamp(0, max_val) *)
  rewrite (bind_ok _ _ σ (σ ++ [X]) (length σ)).
  2:{ unfold Tensor_clamp. by rewrite (bind_ok _ _ _ _ _ (load_ok _ _ _ Hy)). }
  (* B = x.shape[0] *)
  rewrite (bind_ok _ _ (σ ++ [X]) (σ ++ [X]) d0).
  2:{ unfold shape0. by rewrite (bind_ok _ _ _ _ _ (load_ok _ _ _ (lookup_fresh σ X []))). }
  (* one, zero *)
  rewrite (bind_ok _ _ (σ ++ [X]) ((σ ++ [X]) ++ [One]) (length (σ ++ [X]))).
  2:{ unfold ones_like. by rewrite (bind_ok _ _ _ _ _ (load_ok _ _ _ (lookup_fresh σ X []))). }
  rewrite (bind_ok _ _ ((σ ++ [X]) ++ [One]) (((σ ++ [X]) ++ [One]) ++ [Zero])
             (length ((σ ++ [X]) ++ [One]))).
  2:{ unfold zeros_like. rewrite (bind_ok _ _ _ ((σ ++ [X]) ++ [One]) X); [done|].
      apply load_ok. rewrite <- (assoc_L (++)). apply lookup_fresh. }
  (* the loop *)
  assert (E3 : ((σ ++ [X]) ++ [One]) ++ [Zero] = σ ++ [X; One; Zero])
    by (by rewrite <- !(assoc_L (++))).
  rewrite E3. rewrite !length_app. cbn [length].
  assert (H1 : (σ ++ [X; One; Zero]) !! (length σ + 1) = Some One).
  { rewrite lookup_app_r by lia. by replace (length σ + 1 - length σ) with 1 by lia. }
  assert (H0 : (σ ++ [X; One; Zero]) !! (length σ + 1 + 1) = Some Zero).
  { rewrite lookup_app_r by lia. by replace (length σ + 1 + 1 - length σ) with 2 by lia. }
  rewrite (bind_ok _ _ _ _ _
             (encode_loop_ok (length σ) (length σ + 1) (length σ + 1 + 1) L sh (range L)
                (σ ++ [X; One; Zero]) xs [] ltac:(lia) ltac:(lia)
                (lookup_fresh σ X [One; Zero]) H1 H0)).
  (* torch.stack(binary, dim=1) *)
  fold cols. cbn [app]. rewrite !length_app. cbn [length].
  rewrite insert_app_r_alt, Nat.sub_diag by lia. cbn [insert list_insert].
  set (Xf := Tensor sh (residue L (range L) xs)).
  assert (Hlen : length cols = Z.to_nat L).
  { unfold cols. by rewrite length_fmap, length_columns, length_range. }
  unfold stack1.
  rewrite (bind_ok _ _ _ ((σ ++ [Xf; One; Zero]) ++ cols) cols).
  2:{ rewrite length_range, <- Hlen.
      replace (length σ + 3) with (length (σ ++ [Xf; One; Zero]))
        by (rewrite length_app; simpl; lia).
      pose proof (load_all_ok (σ ++ [Xf; One; Zero]) cols []) as Hl.
      by rewrite app_nil_r in Hl. }
  destruct cols as [|t0 r] eqn:Ec; [simpl in Hlen; lia|].
  assert (Ht0 : shape t0 = sh).
  { assert (t0 ∈ Tensor sh <$> columns L (range L) xs) as Hin by (fold cols; rewrite Ec; left).
    apply list_elem_of_fmap in Hin as (c & -> & _). done. }
  rewrite Ht0. unfold sh at 1. rewrite alloc_ok. rewrite Hlen.
  f_equal; [f_equal; rewrite !length_app, Hlen; simpl; lia|].
  by rewrite <- !(assoc_L (++)).
Qed.

(** ** The bits of one element *)

Lemma take_1_drop {A} (l : list A) (i : nat) (a : A) :
  l !! i = Some a → take 1 (drop i l) = [a].
Proof.
  revert i. induction l as [|b r IH]; intros i Hi; [done|].
  destruct i as [|i]; simpl in *; [by injection Hi as ->|]. by apply IH.
Qed.

(** Reading position [i] of every column gives the bits of element [i]. *)
Lemma columns_at (sh : list nat) (L : Z) (todo : list Z) :
  ∀ (xs : list Z) (i : nat) (v : Z), xs !! i = Some v →
    (Tensor sh <$> columns L todo xs) ≫= (λ t, take 1 (drop (i * 1) (data t)))
    = peel L todo v.
Proof.
  induction todo as [|j rest IH]; intros xs i v Hi; [done|].
  cbn [columns peel fmap list_fmap]. rewrite bind_cons. cbn [data].
  set (num := Z.shiftl 1 (L - j - 1)).
  rewrite (take_1_drop _ (i * 1) (bit_of num v)).
  2:{ unfold loop_bits. by rewrite Nat.mul_1_r, list_lookup_fmap, Hi. }
  rewrite (IH _ i (v - bit_of num v * num)%Z); [done|].
  unfold loop_rest. by rewrite list_lookup_fmap, Hi.
Qed.

Lemma peel_range_from (n k s : nat) (v : Z) :
  s + k = n → peel (Z.of_nat n) (Z.of_nat <$> seq s k) v = peel_bits k v.
Proof.
  revert s v. induction k as [|k IH]; intros s v Hs; [done|].
  cbn [seq fmap list_fmap peel peel_bits].
  replace (Z.of_nat n - Z.of_nat s - 1)%Z with (Z.of_nat k) by lia.
  rewrite Z.shiftl_1_l. unfold bit_of at 1 2.
  f_equal. apply IH. lia.
Qed.

Lemma peel_range (n : nat) (v : Z) : peel (Z.of_nat n) (range (Z.of_nat n)) v = peel_bits n v.
Proof. unfold range. rewrite Nat2Z.id. by apply peel_range_from. Qed.

Lemma bind_seq_lookup {A B} (f : A → list B) (g : nat → list B) (xs : list A) (s : nat) :
  (∀ i a, xs !! i = Some a → g (s + i) = f a) →
  seq s (length xs) ≫= g = xs ≫= f.
Proof.
  revert s. induction xs as [|a r IH]; intros s Hg; [done|].
  cbn [length seq]. rewrite !bind_cons.
  rewrite <- (Hg 0 a eq_refl), Nat.add_0_r. f_equal.
  apply IH. intros i b Hi. rewrite <- (Hg (S i) b Hi). f_equal. lia.
Qed.

(** For one-dimensional tensors the stacked data is the sequence of the
    elements' bit strings. *)
Lemma stack1_data_rows (n : nat) (xs : list Z) :
  stack1_data (length xs) []
    (Tensor [length xs] <$> columns (Z.of_nat n) (range (Z.of_nat n)) xs)
  = xs ≫= peel_bits n.
Proof.
  unfold stack1_data. cbn [numel].
  apply bind_seq_lookup. intros i v Hi. cbn [Nat.add].
  by rewrite (columns_at _ _ _ xs i v Hi), peel_range.
Qed.

Lemma length_peel_bits n v : length (peel_bits n v) = n.
Proof. revert v. induction n as [|n IH]; intros v; simpl; [done|]. by rewrite IH. Qed.

Lemma peel_bits_binary n v : Forall (λ b, b = 0 ∨ b = 1)%Z (peel_bits n v).
Proof.
  revert v. induction n as [|n IH]; intros v; simpl; [constructor|].
  constructor; [|apply IH]. destruct (2 ^ Z.of_nat n <=? v)%Z; auto.
Qed.

(** The greedy subtraction recovers every value below [2^n]. *)
Lemma big_endian_peel_bits n v :
  (0 ≤ v < 2 ^ Z.of_nat n)%Z → big_endian (peel_bits n v) = v.
Proof.
  revert v. induction n as [|n IH]; intros v Hv.
  - simpl in *. lia.
  - cbn [peel_bits big_endian]. rewrite length_peel_bits.
    rewrite Nat2Z.inj_succ, Z.pow_succ_r in Hv by lia.
    destruct (Z.leb_spec (2 ^ Z.of_nat n) v) as [Hge|Hlt]; rewrite IH; lia.
Qed.

Lemma clamp_range lo hi v : (lo ≤ hi)%Z → (lo ≤ clamp lo hi v ≤ hi)%Z.
Proof. unfold clamp. lia. Qed.

(** ** The claims about [binary_encode] *)

(** The run on a one-dimensional tensor, when the width is positive and
    large enough for [max_val]. *)
Lemma binary_encode_rows (float_log2 : Z → Z) (σ : list (tensor Z)) (y : nat)
    (max_val : Z) (ys : list Z) :
  σ !! y = Some (Tensor [length ys] ys) → (0 < max_val)%Z →
  (0 < code_width float_log2 max_val)%Z →
  (max_val < 2 ^ code_width float_log2 max_val)%Z →
  ∃ lo σ' out,
    binary_encode float_log2 y max_val σ = (Ok lo, σ') ∧ σ' !! lo = Some out
    ∧ shape out = [length ys; Z.to_nat (code_width float_log2 max_val)]
    ∧ wf out
    ∧ Forall (λ b, b = 0 ∨ b = 1)%Z (data out)
    ∧ ∀ i v, ys !! i = Some v →
        big_endian (row (Z.to_nat (code_width float_log2 max_val)) out i)
        = clamp 0 max_val v.
Proof.
  intros Hy Hmax HL Hfit.
  pose proof (binary_encode_ok float_log2 σ y max_val (length ys) [] ys Hy Hmax HL) as Hrun.
  cbv zeta in Hrun.
  set (L := code_width float_log2 max_val) in *.
  set (n := Z.to_nat L) in *.
  assert (EL : L = Z.of_nat n) by lia.
  set (xs := clamp 0 max_val <$> ys) in *.
  assert (Hxs : length ys = length xs) by (unfold xs; by rewrite length_fmap).
  assert (Hdata : stack1_data (length ys) [] (Tensor [length ys] <$> columns L (range L) xs)
                  = xs ≫= peel_bits n).
  { rewrite EL, Hxs. apply stack1_data_rows. }
  rewrite Hdata in Hrun.
  set (cols := Tensor [length ys] <$> columns L (range L) xs) in *.
  assert (Hcols : length cols = n).
  { unfold cols. by rewrite length_fmap, length_columns, length_range. }
  eexists _, _, _. split; [exact Hrun|].
  assert (Hrows : ∀ a, a ∈ xs → length (peel_bits n a) = n)
    by (intros; apply length_peel_bits).
  split.
  { rewrite (assoc_L (++) σ), (assoc_L (++) (σ ++ _)).
    replace (length σ + 3 + n) with (length ((σ ++ [Tensor [length ys] (residue L (range L) xs);
                Tensor [length ys] (replicate (length xs) 1%Z);
                Tensor [length ys] (replicate (length xs) 0%Z)]) ++ cols)).
    - apply lookup_fresh.
    - rewrite !length_app, Hcols. simpl. lia. }
  split; [reflexivity|]. split; [|split].
  - unfold wf. cbn [shape data numel].
    rewrite (length_bind_uniform _ n) by done. lia.
  - cbn [data]. apply Forall_bind. apply Forall_forall. intros v _. apply peel_bits_binary.
  - intros i v Hi. unfold row. cbn [data].
    assert (Hxi : xs !! i = Some (clamp 0 max_val v))
      by (unfold xs; by rewrite list_lookup_fmap, Hi).
    rewrite (chunk_of_bind _ n xs i _ Hrows Hxi).
    apply big_endian_peel_bits.
    pose proof (clamp_range 0 max_val v ltac:(lia)). rewrite <- EL. lia.
Qed.





Lemma float_of_int_collision : float_of_int (2 ^ 62 - 1) = float_of_int (2 ^ 62).
Proof. vm_compute. reflexivity. Qed.

(** C1 at [max_val = 2^62 - 1]: the conversion to a double rounds it to
    [2^62], so the code computes the same width, and on the tensor [[0]]
    the very same run, for [2^62 - 1] and for [2^62], where the widths of
    C1 are [62] and [63]. *)
Theorem binary_encode_width_collision (float_log2 : Z → Z) :
  code_width float_log2 (2 ^ 62 - 1) = code_width float_log2 (2 ^ 62)
  ∧ (Z.log2 (2 ^ 62 - 1) + 1 = 62 ∧ Z.log2 (2 ^ 62) + 1 = 63)%Z
  ∧ binary_encode float_log2 0 (2 ^ 62 - 1) [Tensor [1] [0%Z]]
    = binary_encode float_log2 0 (2 ^ 62) [Tensor [1] [0%Z]].
Proof.
  assert (Hw : code_width float_log2 (2 ^ 62 - 1) = code_width float_log2 (2 ^ 62)).
  { unfold code_width, int_math_log2. by rewrite float_of_int_collision. }
  split; [exact Hw|]. split; [split; reflexivity|].
  unfold binary_encode. rewrite Hw.
  change (negb (0 <? 2 ^ 62 - 1)%Z) with false.
  change (negb (0 <? 2 ^ 62)%Z) with false. cbv iota.
  unfold bind at 1 6.
  change (Tensor_clamp 0 0 (2 ^ 62 - 1) [Tensor [1] [0%Z]])
    with (Tensor_clamp 0 0 (2 ^ 62) [Tensor [1] [0%Z]]).
  reflexivity.
Qed.

(** With a logarithm that is right on the powers of two, the width at
    [2^62 - 1] is [63]. *)
Lemma code_width_at_2_62_minus_1 (float_log2 : Z → Z) :
  float_log2 (2 ^ 62)%Z = 62%Z → code_width float_log2 (2 ^ 62 - 1) = 63%Z.
Proof.
  intros H. unfold code_width, int_math_log2.
  assert (E : float_of_int (2 ^ 62) = (2 ^ 62)%Z) by (vm_compute; reflexivity).
  by rewrite float_of_int_collision, E, H.
Qed.

(** ** [sequential_pack] and the block builders *)

Section BlockFacts.
Context {W activation norm_module : Type}.
Variable negative_slope : activation → option Q.
Variable xavier_normal_ : W → option W.
Variable kaiming_normal_ : Q → W → option W.
Variable orthogonal_ : W → option W.
Variable build_normalization : string → nat → Z → result norm_module.
Variable new_weight : layer_spec → option W.

Local Abbreviation module' := (module W activation norm_module).
Local Abbreviation no_conv := (λ m : module', conv_out_channels W activation norm_module m = None).
Local Abbreviation pack := (sequential_pack W activation norm_module).
Local Abbreviation init := (weight_init_ W activation negative_slope xavier_normal_
                              kaiming_normal_ orthogonal_).
Local Abbreviation fresh := (fresh_layer W activation negative_slope xavier_normal_
                               kaiming_normal_ orthogonal_ norm_module new_weight).
Local Abbreviation norms := (norm_layers W activation norm_module build_normalization).
Local Abbreviation acts := (act_layers W activation norm_module).
Local Abbreviation pads := (pad_layers W activation norm_module).
Local Abbreviation drops := (dropout_layers W activation norm_module).
Local Abbreviation conv1d := (conv1d_block W activation negative_slope xavier_normal_
                                kaiming_normal_ orthogonal_ norm_module build_normalization
                                new_weight).
Local Abbreviation conv2d := (conv2d_block W activation negative_slope xavier_normal_
                                kaiming_normal_ orthogonal_ norm_module build_normalization
                                new_weight).
Local Abbreviation deconv2d := (deconv2d_block W activation negative_slope xavier_normal_
                                  kaiming_normal_ orthogonal_ norm_module build_normalization
                                  new_weight).
Local Abbreviation fc := (fc_block W activation negative_slope xavier_normal_
                            kaiming_normal_ orthogonal_ norm_module build_normalization
                            new_weight).

Lemma first_out_channels_app (pre rest : list module') :
  Forall no_conv pre →
  first_out_channels W activation norm_module (pre ++ rest)
  = first_out_channels W activation norm_module rest.
Proof.
  induction 1 as [|m pre Hm _ IH]; [done|]. simpl. by rewrite Hm.
Qed.

Lemma first_out_channels_none (layers : list module') :
  first_out_channels W activation norm_module layers = None ↔ Forall no_conv layers.
Proof.
  induction layers as [|m r IH]; simpl; [by split|].
  destruct (conv_out_channels W activation norm_module m) as [c|] eqn:E.
  - split; [done|]. intros H. apply Forall_cons_1 in H as [H _]. congruence.
  - rewrite IH. split; [by constructor | by intros [_ ?]%Forall_cons_1].
Qed.

Lemma first_out_channels_some (layers : list module') (c : Z) :
  first_out_channels W activation norm_module layers = Some c →
  ∃ pre item post, layers = pre ++ item :: post ∧ Forall no_conv pre
                   ∧ conv_out_channels W activation norm_module item = Some c.
Proof.
  induction layers as [|m r IH]; simpl; [done|].
  destruct (conv_out_channels W activation norm_module m) as [c'|] eqn:E.
  - intros [= ->]. by exists [], m, r.
  - intros (pre & item & post & -> & Hpre & Hitem)%IH.
    exists (m :: pre), item, post. repeat split; [|done]. by constructor.
Qed.

(** X4: [sequential_pack] keeps the layers as given; the attribute
    [out_channels] is that of the first [Conv1d], [Conv2d] or
    [ConvTranspose2d] of the list, and is not set when the list has none
    ([Linear] layers do not count). *)
Theorem sequential_pack_out_channels (layers : list module') :
  seq_layers _ _ _ (pack layers) = layers
  ∧ match seq_out_channels _ _ _ (pack layers) with
    | Some c => ∃ pre item post, layers = pre ++ item :: post ∧ Forall no_conv pre
                  ∧ conv_out_channels W activation norm_module item = Some c
    | None => Forall no_conv layers
    end
  ∧ ∀ i o w, no_conv (Layer W activation norm_module (Linear i o) w).
Proof.
  split; [reflexivity|]. split; [|reflexivity]. cbn [sequential_pack seq_out_channels].
  destruct (first_out_channels W activation norm_module layers) as [c|] eqn:E.
  - by apply first_out_channels_some.
  - by apply first_out_channels_none.
Qed.

Lemma fresh_layer_ok spec init_type act m :
  fresh spec init_type act = Ok m →
  ∃ w0 w, new_weight spec = Some w0 ∧ init w0 init_type act = (Ok (), w)
          ∧ m = Layer W activation norm_module spec w.
Proof.
  unfold fresh_layer. destruct (new_weight spec) as [w0|]; [|done].
  destruct (init w0 init_type act) as [[[]|e] w] eqn:E; [|done].
  intros [= <-]. by exists w0, w.
Qed.

Lemma norm_layers_no_conv norm_type dim out norm :
  norms norm_type dim out = Ok norm → Forall no_conv norm ∧ length norm ≤ 1.
Proof.
  unfold norm_layers. destruct norm_type as [nt|].
  - destruct (build_normalization nt dim out) as [m|e]; [|done].
    intros [= <-]. split; [by repeat constructor | simpl; lia].
  - intros [= <-]. split; [constructor | simpl; lia].
Qed.

Lemma pad_layers_no_conv pad_type padding : Forall no_conv (pads pad_type padding).1.
Proof.
  unfold pad_layers. repeat case_match; simpl; by repeat constructor.
Qed.

Lemma bind_Ok_inv {A B} (r : result A) (k : A → result B) (b : B) :
  r ≫= k = Ok b → ∃ a, r = Ok a ∧ k a = Ok b.
Proof. destruct r as [a|e]; [|done]. intros H. by exists a. Qed.

(** X5: when [conv2d_block] returns, the block is the padding layer (for
    ["reflect"] and ["replication"]), the [Conv2d] with the initialised
    weight, the normalisation and the activation, in this order; the
    convolution pads by itself only for ["zero"]; and the attribute
    [out_channels] is the argument [out_channels]. *)
Theorem conv2d_block_layers ic oc k stride padding dilation groups init_type pad_type act
    norm_type (s : Sequential W activation norm_module) :
  conv2d ic oc k stride padding dilation groups init_type pad_type act norm_type = Ok s →
  pad_type ∈ pad_types
  ∧ seq_out_channels _ _ _ s = Some oc
  ∧ ∃ w0 w norm,
      let spec := Conv2d ic oc k stride (if String.eqb pad_type "zero" then padding else 0%Z)
                    dilation groups in
      new_weight spec = Some w0
      ∧ init w0 init_type act = (Ok (), w)
      ∧ norms norm_type 2 oc = Ok norm
      ∧ seq_layers _ _ _ s
        = (if String.eqb pad_type "zero" then []
           else if String.eqb pad_type "reflect"
                then [ReflectionPad2d W activation norm_module padding]
                else [ReplicationPad2d W activation norm_module padding])
          ++ [Layer W activation norm_module spec w] ++ norm ++ acts act.
Proof.
  unfold conv2d_block. case_bool_decide as Hpad; [|done]. cbn [negb].
  intros Hs. split; [done|].
  pose proof (pad_layers_no_conv pad_type padding) as Hnc.
  assert (Hpl : pads pad_type padding
                = (if String.eqb pad_type "zero" then []
                   else if String.eqb pad_type "reflect"
                        then [ReflectionPad2d W activation norm_module padding]
                        else [ReplicationPad2d W activation norm_module padding],
                   if String.eqb pad_type "zero" then padding else 0%Z)).
  { unfold pad_layers. unfold pad_types in Hpad.
    rewrite !elem_of_cons, elem_of_nil in Hpad.
    destruct (String.eqb_spec pad_type "zero"); [done|].
    destruct (String.eqb_spec pad_type "reflect"); [done|].
    destruct (String.eqb_spec pad_type "replication"); [done|].
    by destruct Hpad as [?|[?|[?|[]]]]. }
  rewrite Hpl in Hs, Hnc. cbn [fst] in Hnc. cbv zeta.
  apply bind_Ok_inv in Hs as (conv & Hconv & Hs).
  apply bind_Ok_inv in Hs as (norm & Hnorm & Hs).
  apply fresh_layer_ok in Hconv as (w0 & w & Hw0 & Hw & ->).
  injection Hs as <-. split.
  - cbn [sequential_pack seq_out_channels]. by rewrite first_out_channels_app.
  - by exists w0, w, norm.
Qed.

(** X6: when [conv1d_block] returns, the block starts with the [Conv1d]
    carrying the initialised weight, followed by the normalisation and the
    activation, and its attribute [out_channels] is the argument. *)
Theorem conv1d_block_layers ic oc k stride padding dilation groups init_type act norm_type
    (s : Sequential W activation norm_module) :
  conv1d ic oc k stride padding dilation groups init_type act norm_type = Ok s →
  seq_out_channels _ _ _ s = Some oc
  ∧ ∃ w0 w norm,
      let spec := Conv1d ic oc k stride padding dilation groups in
      new_weight spec = Some w0
      ∧ init w0 init_type act = (Ok (), w)
      ∧ norms norm_type 1 oc = Ok norm
      ∧ seq_layers _ _ _ s = [Layer W activation norm_module spec w] ++ norm ++ acts act.
Proof.
  unfold conv1d_block. intros Hs. cbv zeta.
  apply bind_Ok_inv in Hs as (conv & Hconv & Hs).
  apply bind_Ok_inv in Hs as (norm & Hnorm & Hs).
  apply fresh_layer_ok in Hconv as (w0 & w & Hw0 & Hw & ->).
  injection Hs as <-. split; [reflexivity|]. by exists w0, w, norm.
Qed.

(** X7: when [deconv2d_block] returns, the block starts with the
    [ConvTranspose2d] carrying the initialised weight, followed by the
    normalisation and the activation, and its attribute [out_channels] is
    the argument. *)
Theorem deconv2d_block_layers ic oc k stride padding output_padding groups init_type act
    norm_type (s : Sequential W activation norm_module) :
  deconv2d ic oc k stride padding output_padding groups init_type act norm_type = Ok s →
  seq_out_channels _ _ _ s = Some oc
  ∧ ∃ w0 w norm,
      let spec := ConvTranspose2d ic oc k stride padding output_padding groups in
      new_weight spec = Some w0
      ∧ init w0 init_type act = (Ok (), w)
      ∧ norms norm_type 2 oc = Ok norm
      ∧ seq_layers _ _ _ s = [Layer W activation norm_module spec w] ++ norm ++ acts act.
Proof.
  unfold deconv2d_block. intros Hs. cbv zeta.
  apply bind_Ok_inv in Hs as (conv & Hconv & Hs).
  apply bind_Ok_inv in Hs as (norm & Hnorm & Hs).
  apply fresh_layer_ok in Hconv as (w0 & w & Hw0 & Hw & ->).
  injection Hs as <-. split; [reflexivity|]. by exists w0, w, norm.
Qed.


Lemma fresh_layer_key_error spec init_type act :
  is_Some (new_weight spec) → init_type ∉ init_types →
  fresh spec init_type act
  = Raise (KeyError ("Invalid Value in init type: " +:+ init_type)).
Proof.
  intros [w0 Hw0] Hn. unfold fresh_layer. rewrite Hw0.
  unfold weight_init_.
  by rewrite (proj2 (init_type_dict_lookup negative_slope xavier_normal_ kaiming_normal_
                       orthogonal_ init_type) Hn).
Qed.

Lemma fresh_layer_kaiming_none spec :
  is_Some (new_weight spec) → fresh spec "kaiming" None = Raise AssertionError.
Proof.
  intros [w0 Hw0]. unfold fresh_layer. rewrite Hw0.
  by rewrite (weight_init_kaiming negative_slope xavier_normal_ kaiming_normal_ orthogonal_).
Qed.

Lemma pad_type_accepted pad_type :
  pad_type ∈ pad_types → negb (bool_decide (pad_type ∈ pad_types)) = false.
Proof. intros H. by rewrite bool_decide_eq_true_2. Qed.

(** X9: an [init_type] outside the three names makes every block builder
    raise the [KeyError] of [weight_init_], naming it, once torch has
    built the layer (and, for [conv2d_block], the [pad_type] is accepted);
    no block is returned. *)
Theorem blocks_invalid_init_type ic oc k stride padding dilation output_padding groups
    init_type pad_type act norm_type use_dropout p :
  init_type ∉ init_types → (∀ spec, is_Some (new_weight spec)) → pad_type ∈ pad_types →
  conv1d ic oc k stride padding dilation groups init_type act norm_type
    = Raise (KeyError ("Invalid Value in init type: " +:+ init_type))
  ∧ conv2d ic oc k stride padding dilation groups init_type pad_type act norm_type
    = Raise (KeyError ("Invalid Value in init type: " +:+ init_type))
  ∧ deconv2d ic oc k stride padding output_padding groups init_type act norm_type
    = Raise (KeyError ("Invalid Value in init type: " +:+ init_type))
  ∧ fc ic oc init_type act norm_type use_dropout p
    = Raise (KeyError ("Invalid Value in init type: " +:+ init_type)).
Proof.
  intros Hn Hnew Hpad. unfold conv1d_block, conv2d_block, deconv2d_block, fc_block.
  rewrite (pad_type_accepted _ Hpad). destruct (pads pad_type padding) as [pad padding'].
  by rewrite !fresh_layer_key_error.
Qed.

(** X10: with [init_type = "kaiming"] and no activation (the default of
    every builder) each block builder raises the [AssertionError] of
    [kaiming_init], once torch has built the layer (and, for
    [conv2d_block], the [pad_type] is accepted). *)
Theorem blocks_kaiming_without_activation ic oc k stride padding dilation output_padding
    groups pad_type norm_type use_dropout p :
  (∀ spec, is_Some (new_weight spec)) → pad_type ∈ pad_types →
  conv1d ic oc k stride padding dilation groups "kaiming" None norm_type
    = Raise AssertionError
  ∧ conv2d ic oc k stride padding dilation groups "kaiming" pad_type None norm_type
    = Raise AssertionError
  ∧ deconv2d ic oc k stride padding output_padding groups "kaiming" None norm_type
    = Raise AssertionError
  ∧ fc ic oc "kaiming" None norm_type use_dropout p = Raise AssertionError.
Proof.
  intros Hnew Hpad. unfold conv1d_block, conv2d_block, deconv2d_block, fc_block.
  rewrite (pad_type_accepted _ Hpad). destruct (pads pad_type padding) as [pad padding'].
  by rewrite !fresh_layer_kaiming_none.
Qed.

(** X11: a [pad_type] other than ["zero"], ["reflect"], ["replication"]
    makes [conv2d_block] fail its assertion before any layer is built,
    whatever the other arguments are. *)
Theorem conv2d_block_pad_type ic oc k stride padding dilation groups init_type pad_type act
    norm_type :
  pad_type ∉ pad_types →
  conv2d ic oc k stride padding dilation groups init_type pad_type act norm_type
  = Raise AssertionError.
Proof. intros Hn. unfold conv2d_block. by rewrite bool_decide_eq_false_2. Qed.
End BlockFacts.

Lemma conv2d_block_layers_witness :
  demo_conv2d_block 3 8 3 1 1 1 1 "xavier" "reflect" (Some ()) (Some "BN")
  = Ok demo_reflect_block
  ∧ ("reflect" ∈ pad_types
     ∧ seq_out_channels _ _ _ demo_reflect_block = Some 8%Z
     ∧ ∃ w0 w norm,
         let spec := Conv2d 3 8 3 1 (if String.eqb "reflect" "zero" then 1%Z else 0%Z) 1 1 in
         (λ _ : layer_spec, Some 0) spec = Some w0
         ∧ weight_init_ nat unit (λ _, None) Some (λ _, Some) Some w0 "xavier" (Some ())
           = (Ok (), w)
         ∧ norm_layers nat unit unit (λ _ _ _, Ok ()) (Some "BN") 2 8 = Ok norm
         ∧ seq_layers _ _ _ demo_reflect_block
           = (if String.eqb "reflect" "zero" then []
              else if String.eqb "reflect" "reflect"
                   then [ReflectionPad2d nat unit unit 1]
                   else [ReplicationPad2d nat unit unit 1])
             ++ [Layer nat unit unit spec w] ++ norm ++ act_layers nat unit unit (Some ())).
Proof.
  split; [reflexivity|].
  apply (conv2d_block_layers (λ _ : unit, None) Some (λ _, Some) Some (λ _ _ _, Ok ())
           (λ _, Some 0) 3 8 3 1 1 1 1 "xavier" "reflect" (Some ()) (Some "BN")).
  reflexivity.
Defined.

Lemma conv1d_block_layers_witness :
  demo_conv1d_block 3 8 3 1 0 1 1 "orthogonal" None None = Ok demo_conv1d_result
  ∧ (seq_out_channels _ _ _ demo_conv1d_result = Some 8%Z
     ∧ ∃ w0 w norm,
         let spec := Conv1d 3 8 3 1 0 1 1 in
         (λ _ : layer_spec, Some 0) spec = Some w0
         ∧ weight_init_ nat unit (λ _, None) Some (λ _, Some) Some w0 "orthogonal" None
           = (Ok (), w)
         ∧ norm_layers nat unit unit (λ _ _ _, Ok ()) None 1 8 = Ok norm
         ∧ seq_layers _ _ _ demo_conv1d_result
           = [Layer nat unit unit spec w] ++ norm ++ act_layers nat unit unit None).
Proof.
  split; [reflexivity|].
  apply (conv1d_block_layers (λ _ : unit, None) Some (λ _, Some) Some (λ _ _ _, Ok ())
           (λ _, Some 0) 3 8 3 1 0 1 1 "orthogonal" None None).
  reflexivity.
Defined.

Lemma deconv2d_block_layers_witness :
  demo_deconv2d_block 8 3 4 2 1 0 1 "kaiming" (Some ()) None = Ok demo_deconv2d_result
  ∧ (seq_out_channels _ _ _ demo_deconv2d_result = Some 3%Z
     ∧ ∃ w0 w norm,
         let spec := ConvTranspose2d 8 3 4 2 1 0 1 in
         (λ _ : layer_spec, Some 0) spec = Some w0
         ∧ weight_init_ nat unit (λ _, None) Some (λ _, Some) Some w0 "kaiming" (Some ())
           = (Ok (), w)
         ∧ norm_layers nat unit unit (λ _ _ _, Ok ()) None 2 3 = Ok norm
         ∧ seq_layers _ _ _ demo_deconv2d_result
           = [Layer nat unit unit spec w] ++ norm ++ act_layers nat unit unit (Some ())).
Proof.
  split; [reflexivity|].
  apply (deconv2d_block_layers (λ _ : unit, None) Some (λ _, Some) Some (λ _ _ _, Ok ())
           (λ _, Some 0) 8 3 4 2 1 0 1 "kaiming" (Some ()) None).
  reflexivity.
Defined.


Lemma blocks_invalid_init_type_witness :
  ("he" ∉ init_types) ∧ (∀ spec : layer_spec, is_Some ((λ _, Some 0) spec))
  ∧ ("zero" ∈ pad_types)
  ∧ (demo_conv1d_block 3 8 3 1 0 1 1 "he" None None
       = Raise (KeyError ("Invalid Value in init type: " +:+ "he"))
     ∧ demo_conv2d_block 3 8 3 1 0 1 1 "he" "zero" None None
       = Raise (KeyError ("Invalid Value in init type: " +:+ "he"))
     ∧ demo_deconv2d_block 3 8 3 1 0 0 1 "he" None None
       = Raise (KeyError ("Invalid Value in init type: " +:+ "he"))
     ∧ demo_fc_block 3 8 "he" None None false 0
       = Raise (KeyError ("Invalid Value in init type: " +:+ "he"))).
Proof.
  assert (Hn : "he" ∉ init_types).
  { unfold init_types. rewrite !not_elem_of_cons.
    repeat split; try done. apply not_elem_of_nil. }
  assert (Hw : ∀ spec : layer_spec, is_Some ((λ _, Some 0) spec)) by (by eexists).
  assert (Hp : "zero" ∈ pad_types) by (unfold pad_types; left).
  split; [exact Hn|]. split; [exact Hw|]. split; [exact Hp|].
  exact (blocks_invalid_init_type (λ _ : unit, None) Some (λ _, Some) Some (λ _ _ _, Ok ())
           (λ _, Some 0) 3 8 3 1 0 1 0 1 "he" "zero" None None false 0 Hn Hw Hp).
Defined.

Lemma blocks_kaiming_without_activation_witness :
  (∀ spec : layer_spec, is_Some ((λ _, Some 0) spec)) ∧ ("zero" ∈ pad_types)
  ∧ (demo_conv1d_block 3 8 3 1 0 1 1 "kaiming" None None = Raise AssertionError
     ∧ demo_conv2d_block 3 8 3 1 0 1 1 "kaiming" "zero" None None = Raise AssertionError
     ∧ demo_deconv2d_block 3 8 3 1 0 0 1 "kaiming" None None = Raise AssertionError
     ∧ demo_fc_block 3 8 "kaiming" None None false 0 = Raise AssertionError).
Proof.
  assert (Hw : ∀ spec : layer_spec, is_Some ((λ _, Some 0) spec)) by (by eexists).
  assert (Hp : "zero" ∈ pad_types) by (unfold pad_types; left).
  split; [exact Hw|]. split; [exact Hp|].
  exact (blocks_kaiming_without_activation (λ _ : unit, None) Some (λ _, Some) Some
           (λ _ _ _, Ok ()) (λ _, Some 0) 3 8 3 1 0 1 0 1 "zero" None false 0 Hw Hp).
Defined.

Lemma conv2d_block_pad_type_witness :
  ("replicate" ∉ pad_types)
  ∧ demo_conv2d_block 3 8 3 1 1 1 1 "xavier" "replicate" None None = Raise AssertionError.
Proof.
  assert (Hn : "replicate" ∉ pad_types).
  { unfold pad_types. rewrite !not_elem_of_cons.
    repeat split; try done. apply not_elem_of_nil. }
  split; [exact Hn|].
  exact (conv2d_block_pad_type (λ _ : unit, None) Some (λ _, Some) Some (λ _ _ _, Ok ())
           (λ _, Some 0) 3 8 3 1 1 1 1 "xavier" "replicate" None None Hn).
Defined.

(** ** More on [ChannelShuffle] *)

Section ShuffleMore.
Context {A : Type} `{!Inhabited A}.

Lemma ChannelShuffle_negative_raises (g : Z) (x : tensor A) b c h w :
  shape x = [b; c; h; w] → (g < 0)%Z →
  ∃ e, ChannelShuffle_forward {| group_num := g |} x = Raise e.
Proof.
  intros Hsh Hg. unfold ChannelShuffle_forward. rewrite Hsh. simpl group_num.
  destruct (Z.eqb_spec g 0) as [E|_]; [lia|].
  destruct (Z.eqb_spec (Z.of_nat c mod g) 0) as [Hmod|_]; [|by eexists].
  simpl negb. cbv iota.
  assert (∃ e, view x [Z.of_nat b; g; (Z.of_nat c `div` g)%Z; Z.of_nat h; Z.of_nat w]
               = Raise e) as [e ->]; [|by eexists].
  unfold view. rewrite Hsh.
  destruct (infer_size_negative_group g b c h w Hg) as [msg ->]. by eexists.
Qed.

(** What a returning call was given and what it returned. *)
Lemma ChannelShuffle_forward_Ok_inv (g : Z) (x out : tensor A) :
  ChannelShuffle_forward {| group_num := g |} x = Ok out →
  ∃ b g' m h w,
    shape x = [b; m * g'; h; w] ∧ 0 < g' ∧ g = Z.of_nat g'
    ∧ out = Tensor [b; m * g'; h; w]
              ((λ k, data x !!! shuffle_source b g' m h w k)
                 <$> seq 0 (numel [b; m; g'; h; w])).
Proof.
  intros Hout.
  destruct (shape x) as [|b [|c [|h [|w [|? ?]]]]] eqn:Hsh;
    try (unfold ChannelShuffle_forward in Hout; rewrite Hsh in Hout; discriminate).
  destruct (Z.lt_trichotomy g 0) as [Hg|[->|Hg]].
  - destruct (ChannelShuffle_negative_raises g x b c h w Hsh Hg) as [e He]. congruence.
  - rewrite (ChannelShuffle_forward_zero_group x b c h w Hsh) in Hout. discriminate.
  - destruct (Z.eq_dec (Z.of_nat c mod g)%Z 0%Z) as [Hdiv%Z.mod_divide|Hnd]; [|lia|].
    + destruct (divides_nat g c Hg Hdiv) as (g' & m & -> & Hg' & -> & _ & _).
      rewrite (ChannelShuffle_forward_eq x b g' m h w Hsh Hg') in Hout.
      injection Hout as <-. by exists b, g', m, h, w.
    + rewrite (ChannelShuffle_forward_not_dividing g x b c h w Hsh) in Hout;
        [discriminate | lia |].
      intros Hdiv%Z.mod_divide; [done|lia].
Qed.

(** X12: [forward] returns exactly when the input has four axes, the group
    count is positive and it divides the channel count; the result then
    has the shape of the input. *)
Theorem ChannelShuffle_forward_returns_iff (g : Z) (x : tensor A) :
  (returns (ChannelShuffle_forward {| group_num := g |} x)
   ↔ ∃ b c h w, shape x = [b; c; h; w] ∧ (0 < g)%Z ∧ (g | Z.of_nat c)%Z)
  ∧ ∀ out, ChannelShuffle_forward {| group_num := g |} x = Ok out → shape out = shape x.
Proof.
  split; [split|].
  - intros [out Hout].
    apply ChannelShuffle_forward_Ok_inv in Hout as (b & g' & m & h & w & Hsh & Hg' & -> & _).
    exists b, (m * g'), h, w. split; [done|]. split; [lia|].
    exists (Z.of_nat m). lia.
  - intros (b & c & h & w & Hsh & Hg & Hdiv).
    destruct (divides_nat g c Hg Hdiv) as (g' & m & -> & Hg' & -> & _ & _).
    rewrite (ChannelShuffle_forward_eq x b g' m h w Hsh Hg'). by eexists.
  - intros out (b & g' & m & h & w & Hsh & _ & _ & ->)%ChannelShuffle_forward_Ok_inv.
    by rewrite Hsh.
Qed.

Lemma shuffle_source_trivial b g m h w k :
  k < numel [b; m; g; h; w] → g = 1 ∨ m = 1 → shuffle_source b g m h w k = k.
Proof.
  intros Hk Hone.
  destruct (in_bounds_5 _ _ _ _ _ _ (unravel_in_bounds _ _ Hk))
    as (i0 & i1 & i2 & i3 & i4 & E & ? & ? & ? & ? & ?).
  pose proof (ravel_unravel _ _ Hk) as Hr. rewrite E in Hr.
  unfold shuffle_source. rewrite E.
  change (permute_source [0; 2; 1; 3; 4] [i0; i1; i2; i3; i4]) with [i0; i2; i1; i3; i4].
  rewrite <- Hr. simpl.
  destruct Hone as [-> | ->].
  - assert (i2 = 0) as -> by lia. lia.
  - assert (i1 = 0) as -> by lia. lia.
Qed.

Lemma fmap_lookup_total_seq (dat : list A) :
  (λ k, dat !!! k) <$> seq 0 (length dat) = dat.
Proof.
  apply list_eq. intros k. rewrite list_lookup_fmap.
  destruct (decide (k < length dat)) as [Hk|Hk].
  - rewrite lookup_seq_lt by done. simpl. symmetry. by apply list_lookup_lookup_total_lt.
  - rewrite lookup_seq_ge by lia. simpl. symmetry. apply lookup_ge_None_2. lia.
Qed.

(** X13: with one group, or with as many groups as channels, [forward]
    returns its input. *)
Theorem ChannelShuffle_trivial_groups (x : tensor A) (b c h w : nat) :
  shape x = [b; c; h; w] → wf x →
  ChannelShuffle_forward {| group_num := 1 |} x = Ok x
  ∧ (0 < c → ChannelShuffle_forward {| group_num := Z.of_nat c |} x = Ok x).
Proof.
  intros Hsh Hwf. destruct x as [sh dat]. simpl in Hsh. subst sh.
  unfold wf in Hwf. cbn [shape data] in Hwf.
  assert (Hdat : ∀ g m, c = m * g → g = 1 ∨ m = 1 →
            (λ k, dat !!! shuffle_source b g m h w k) <$> seq 0 (numel [b; m; g; h; w]) = dat).
  { intros g m Hc Hone.
    transitivity ((λ k, dat !!! k) <$> seq 0 (length dat)); [|apply fmap_lookup_total_seq].
    replace (length dat) with (numel [b; m; g; h; w]) by (rewrite Hwf, Hc; simpl; lia).
    apply list_fmap_ext. intros i k Hi. apply lookup_seq in Hi as [-> Hi].
    by rewrite shuffle_source_trivial. }
  split.
  - change 1%Z with (Z.of_nat 1).
    assert (Hsh : shape (Tensor [b; c; h; w] dat) = [b; c * 1; h; w])
      by (cbn [shape]; by rewrite Nat.mul_1_r).
    rewrite (ChannelShuffle_forward_eq _ b 1 c h w Hsh) by lia.
    rewrite Hdat by (lia || by left). by rewrite Nat.mul_1_r.
  - intros Hc.
    assert (Hsh : shape (Tensor [b; c; h; w] dat) = [b; 1 * c; h; w])
      by (cbn [shape]; by rewrite Nat.mul_1_l).
    rewrite (ChannelShuffle_forward_eq _ b c 1 h w Hsh) by lia.
    rewrite Hdat by (lia || by right). by rewrite Nat.mul_1_l.
Qed.

Lemma shuffle_sources_permutation b g m h w :
  shuffle_source b g m h w <$> seq 0 (numel [b; m; g; h; w])
  ≡ₚ seq 0 (numel [b; g; m; h; w]).
Proof.
  apply NoDup_Permutation.
  - apply NoDup_fmap_2_strong; [|apply NoDup_seq].
    intros k1 k2 [_ H1]%elem_of_seq [_ H2]%elem_of_seq E. simpl in H1, H2.
    rewrite <- (shuffle_source_involutive b m g h w k1), <- (shuffle_source_involutive b m g h w k2)
      by done.
    by rewrite E.
  - apply NoDup_seq.
  - intros j. rewrite list_elem_of_fmap, elem_of_seq. split.
    + intros (k & -> & [_ Hk]%elem_of_seq). simpl in Hk. split; [lia|].
      by apply shuffle_source_lt.
    + intros [_ Hj]. simpl in Hj. exists (shuffle_source b m g h w j). split.
      * by rewrite shuffle_source_involutive.
      * apply elem_of_seq. split; [lia|]. simpl. by apply shuffle_source_lt.
Qed.

(** X14: a returned tensor holds the values of the input, each as often as
    the input does: nothing is dropped or duplicated. *)
Theorem ChannelShuffle_forward_permutation (g : Z) (x out : tensor A) :
  wf x → ChannelShuffle_forward {| group_num := g |} x = Ok out → data out ≡ₚ data x.
Proof.
  intros Hwf (b & g' & m & h & w & Hsh & _ & _ & ->)%ChannelShuffle_forward_Ok_inv.
  cbn [data]. unfold wf in Hwf. rewrite Hsh in Hwf.
  transitivity ((λ j, data x !!! j)
                  <$> (shuffle_source b g' m h w <$> seq 0 (numel [b; m; g'; h; w]))).
  { by rewrite <- list_fmap_compose. }
  rewrite shuffle_sources_permutation.
  replace (numel [b; g'; m; h; w]) with (length (data x)) by (rewrite Hwf; simpl; lia).
  by rewrite fmap_lookup_total_seq.
Qed.
End ShuffleMore.

Lemma ChannelShuffle_trivial_groups_witness :
  ChannelShuffle_forward {| group_num := 1 |} (Tensor [1; 3; 1; 2] [1; 2; 3; 4; 5; 6]%Z)
  = Ok (Tensor [1; 3; 1; 2] [1; 2; 3; 4; 5; 6]%Z)
  ∧ (0 < 3 →
     ChannelShuffle_forward {| group_num := Z.of_nat 3 |} (Tensor [1; 3; 1; 2] [1; 2; 3; 4; 5; 6]%Z)
     = Ok (Tensor [1; 3; 1; 2] [1; 2; 3; 4; 5; 6]%Z)).
Proof.
  apply (ChannelShuffle_trivial_groups (Tensor [1; 3; 1; 2] [1; 2; 3; 4; 5; 6]%Z) 1 3 1 2).
  - reflexivity.
  - reflexivity.
Defined.

Lemma ChannelShuffle_forward_permutation_witness :
  data (Tensor [1; 6; 1; 1] [10; 13; 11; 14; 12; 15]%Z) ≡ₚ [10; 11; 12; 13; 14; 15]%Z.
Proof.
  apply (ChannelShuffle_forward_permutation 2 (Tensor [1; 6; 1; 1] [10; 11; 12; 13; 14; 15]%Z)
           (Tensor [1; 6; 1; 1] [10; 13; 11; 14; 12; 15]%Z)).
  - reflexivity.
  - reflexivity.
Defined.

(** ** More on [one_hot] and [weight_init_] *)

Lemma foldr_min_le_elem (base v : Z) (l : list Z) :
  v ∈ l → (foldr Z.min base l ≤ v)%Z.
Proof. induction 1 as [v r|v u r _ IH]; simpl; lia. Qed.

Lemma foldr_max_ge_elem (base v : Z) (l : list Z) :
  v ∈ l → (v ≤ foldr Z.max base l)%Z.
Proof. induction 1 as [v r|v u r _ IH]; simpl; lia. Qed.

(** X15: for a positive number of states, [one_hot] returns exactly when
    every element lies in [[0, num-1]]; otherwise it raises. *)
Theorem one_hot_returns_iff (val : tensor Z) (num : Z) (num_first : bool) :
  wf val → (0 < num)%Z →
  (returns (one_hot val num num_first) ↔ Forall (λ v, (0 ≤ v < num)%Z) (data val)).
Proof.
  intros Hwf Hnum. split.
  - intros [out Hout]. unfold one_hot, F_one_hot in Hout.
    destruct (Nat.eqb_spec (numel (shape val)) 0) as [E|_].
    { unfold wf in Hwf. rewrite E in Hwf. apply nil_length_inv in Hwf. rewrite Hwf. constructor. }
    destruct (Z.ltb_spec (list_min (data val)) 0) as [?|Hmin]; [done|].
    destruct (Z.eqb_spec num (-1)) as [?|_]; [lia|].
    destruct (Z.ltb_spec (list_max (data val)) num) as [Hmax|?]; [|done].
    apply Forall_forall. intros v Hv.
    pose proof (foldr_min_le_elem (hd 0%Z (data val)) v _ Hv).
    pose proof (foldr_max_ge_elem (hd 0%Z (data val)) v _ Hv).
    unfold list_min, list_max in *. lia.
  - intros Hall. unfold one_hot. rewrite F_one_hot_in_range; [by eexists|done..|].
    eapply Forall_impl; [exact Hall|]. simpl. lia.
Qed.

Lemma one_hot_returns_iff_witness :
  returns (one_hot (Tensor [3] [0; 3; 1]%Z) 3 false)
  ↔ Forall (λ v, (0 ≤ v < 3)%Z) [0; 3; 1]%Z.
Proof.
  apply (one_hot_returns_iff (Tensor [3] [0; 3; 1]%Z) 3 false).
  - reflexivity.
  - lia.
Defined.

Section WeightInitMore.
Context {W activation : Type}.
Variable negative_slope : activation → option Q.
Variable xavier_normal_ : W → option W.
Variable kaiming_normal_ : Q → W → option W.
Variable orthogonal_ : W → option W.

Local Abbreviation weight_init := (weight_init_ W activation negative_slope
                                     xavier_normal_ kaiming_normal_ orthogonal_).

Lemma run_init_not_assertion (f : W → option W) (weight : W) :
  (run_init W f weight).1 ≠ Raise AssertionError.
Proof. unfold run_init. by destruct (f weight). Qed.

(** X16: the assertion of [kaiming_init] is the only [AssertionError] of
    [weight_init_]: it is raised exactly for ["kaiming"] without an
    activation; ["xavier"] and ["orthogonal"] never look at the activation. *)
Theorem weight_init_assertion (weight : W) (init_type : string) (act : option activation) :
  ((weight_init_ W activation negative_slope xavier_normal_ kaiming_normal_ orthogonal_
      weight init_type act).1 = Raise AssertionError
     ↔ init_type = "kaiming" ∧ act = None)
  ∧ (∀ act', weight_init weight "xavier" act = weight_init weight "xavier" act')
  ∧ (∀ act', weight_init weight "orthogonal" act = weight_init weight "orthogonal" act').
Proof.
  split; [split|split].
  - intros Hraise.
    destruct (decide (init_type ∈ init_types)) as [Hin|Hn].
    + unfold init_types in Hin. rewrite !elem_of_cons, elem_of_nil in Hin.
      destruct Hin as [->|[->|[->|[]]]].
      * rewrite weight_init_xavier in Hraise. by apply run_init_not_assertion in Hraise.
      * split; [done|]. rewrite weight_init_kaiming in Hraise. unfold kaiming_init in Hraise.
        destruct act as [a|]; [|done].
        destruct (negative_slope a); by apply run_init_not_assertion in Hraise.
      * rewrite weight_init_orthogonal in Hraise. by apply run_init_not_assertion in Hraise.
    + apply init_type_dict_lookup with (negative_slope := negative_slope)
        (xavier_normal_ := xavier_normal_) (kaiming_normal_ := kaiming_normal_)
        (orthogonal_ := orthogonal_) in Hn.
      unfold weight_init_ in Hraise. by rewrite Hn in Hraise.
  - intros [-> ->]. by rewrite weight_init_kaiming.
  - intros act'. by rewrite !weight_init_xavier.
  - intros act'. by rewrite !weight_init_orthogonal.
Qed.
End WeightInitMore.

(** ** More on [binary_encode] *)

Lemma lookup_bind_chunk {A B} (f : A → list B) (c : nat) (l : list A) (i r : nat) (a : A) :
  (∀ a, a ∈ l → length (f a) = c) → l !! i = Some a → r < c →
  (l ≫= f) !! (i * c + r) = f a !! r.
Proof.
  intros Hf Hi Hr.
  rewrite <- (chunk_of_bind f c l i a Hf Hi).
  by rewrite lookup_take_lt, lookup_drop.
Qed.

Lemma length_loop_bits num xs : length (loop_bits num xs) = length xs.
Proof. unfold loop_bits. by rewrite length_fmap. Qed.

Lemma columns_length (L : Z) (todo : list Z) :
  ∀ xs col, col ∈ columns L todo xs → length col = length xs.
Proof.
  induction todo as [|i rest IH]; intros xs col Hcol; simpl in Hcol.
  - by apply elem_of_nil in Hcol.
  - apply elem_of_cons in Hcol as [->|Hcol]; [apply length_loop_bits|].
    rewrite (IH _ _ Hcol). apply length_loop_rest.
Qed.

(** Column [j] holds, at every position, bit [j] of the element there. *)
Lemma columns_lookup (L : Z) (todo : list Z) :
  ∀ xs j col p v, columns L todo xs !! j = Some col → xs !! p = Some v →
    col !! p = peel L todo v !! j.
Proof.
  induction todo as [|i rest IH]; intros xs j col p v Hcol Hp; [done|].
  cbn [columns peel] in *. destruct j as [|j]; simpl in *.
  - injection Hcol as <-. unfold loop_bits. by rewrite list_lookup_fmap, Hp.
  - eapply IH; [exact Hcol|]. unfold loop_rest. by rewrite list_lookup_fmap, Hp.
Qed.

Lemma peel_bits_testbit (n : nat) :
  ∀ v j, (0 ≤ v < 2 ^ Z.of_nat n)%Z → j < n →
    peel_bits n v !! j = Some (Z.b2z (Z.testbit v (Z.of_nat n - 1 - Z.of_nat j))).
Proof.
  induction n as [|n IH]; intros v j Hv Hj; [lia|].
  rewrite Nat2Z.inj_succ, Z.pow_succ_r in Hv by lia.
  cbn [peel_bits].
  assert (Htop : Z.testbit v (Z.of_nat n) = (2 ^ Z.of_nat n <=? v)%Z).
  { destruct (Z.leb_spec (2 ^ Z.of_nat n) v) as [Hge|Hlt].
    - apply Z.testbit_true; [lia|].
      assert (v / 2 ^ Z.of_nat n = 1)%Z as ->; [|done].
      symmetry. apply (Z.div_unique _ _ _ (v - 2 ^ Z.of_nat n)); lia.
    - destruct (Z.eq_dec v 0%Z) as [->|Hne]; [apply Z.bits_0|].
      apply Z.bits_above_log2; [lia|]. apply Z.log2_lt_pow2; lia. }
  destruct j as [|j]; cbn [lookup list_lookup].
  - replace (Z.of_nat (S n) - 1 - Z.of_nat 0)%Z with (Z.of_nat n) by lia.
    rewrite Htop. by destruct (2 ^ Z.of_nat n <=? v)%Z.
  - rewrite IH by (destruct (Z.leb_spec (2 ^ Z.of_nat n) v); lia).
    f_equal. f_equal.
    replace (Z.of_nat (S n) - 1 - Z.of_nat (S j))%Z
      with (Z.of_nat n - 1 - Z.of_nat j)%Z by lia.
    set (m := (Z.of_nat n - 1 - Z.of_nat j)%Z).
    destruct (Z.leb_spec (2 ^ Z.of_nat n) v) as [Hge|Hlt].
    + replace (v - 1 * 2 ^ Z.of_nat n)%Z with (v mod 2 ^ Z.of_nat n)%Z.
      * apply Z.mod_pow2_bits_low. lia.
      * symmetry. apply (Z.mod_unique _ _ 1); lia.
    + by replace (v - 0 * 2 ^ Z.of_nat n)%Z with v by lia.
Qed.

Lemma peel_bits_zero (n : nat) : peel_bits n 0 = replicate n 0%Z.
Proof.
  induction n as [|n IH]; [done|]. cbn [peel_bits replicate].
  destruct (Z.leb_spec (2 ^ Z.of_nat n) 0) as [H|_]; [lia|].
  replace (0 - 0 * 2 ^ Z.of_nat n)%Z with 0%Z by lia. by rewrite IH.
Qed.

Lemma length_stack_slice (R i : nat) (col : list Z) (d0 : nat) :
  length col = d0 * R → i < d0 → length (take R (drop (i * R) col)) = R.
Proof. intros Hl Hi. rewrite length_take, length_drop. nia. Qed.

(** Every entry of the result, for a tensor of any shape with at least one
    axis: entry [(i, j, ks)] is bit [j] of the clamped element [(i, ks)]. *)
Lemma binary_encode_digit_lookup (float_log2 : Z → Z) (σ : list (tensor Z)) (y : nat)
    (max_val : Z) (d0 : nat) (rest : list nat) (ys : list Z) :
  σ !! y = Some (Tensor (d0 :: rest) ys) → length ys = numel (d0 :: rest) →
  (0 < max_val)%Z → (0 < code_width float_log2 max_val)%Z →
  ∃ out, binary_encode_returns float_log2 σ y max_val out
    ∧ shape out = d0 :: Z.to_nat (code_width float_log2 max_val) :: rest
    ∧ wf out
    ∧ ∀ i j ks v, i < d0 → j < Z.to_nat (code_width float_log2 max_val) →
        in_bounds ks rest → ys !! ravel (d0 :: rest) (i :: ks) = Some v →
        get out (i :: j :: ks)
        = peel_bits (Z.to_nat (code_width float_log2 max_val)) (clamp 0 max_val v) !! j.
Proof.
  intros Hy Hwf Hmax HL.
  pose proof (binary_encode_ok float_log2 σ y max_val d0 rest ys Hy Hmax HL) as Hrun.
  cbv zeta in Hrun.
  set (L := code_width float_log2 max_val) in *.
  set (n := Z.to_nat L) in *.
  assert (EL : L = Z.of_nat n) by lia.
  set (xs := clamp 0 max_val <$> ys) in *.
  set (R := numel rest).
  assert (Hxs : length xs = d0 * R) by (unfold xs; rewrite length_fmap, Hwf; done).
  set (colsZ := columns L (range L) xs) in *.
  set (cols := Tensor (d0 :: rest) <$> colsZ) in *.
  assert (HcolsZ : length colsZ = n).
  { unfold colsZ. by rewrite length_columns, length_range. }
  assert (Hcols : length cols = n) by (unfold cols; by rewrite length_fmap).
  set (G := λ (i : nat) (t : tensor Z), take R (drop (i * R) (data t))).
  set (F := λ i : nat, cols ≫= G i).
  assert (HG : ∀ i, i < d0 → ∀ t, t ∈ cols → length (G i t) = R).
  { intros i Hi t Ht. unfold cols in Ht. apply list_elem_of_fmap in Ht as (col & -> & Hcol).
    unfold G. cbn [data]. apply (length_stack_slice R i col d0); [|done].
    rewrite <- Hxs. eapply columns_length. exact Hcol. }
  assert (HF : ∀ i, i ∈ seq 0 d0 → length (F i) = n * R).
  { intros i [_ Hi]%elem_of_seq. unfold F.
    rewrite (length_bind_uniform _ R); [by rewrite Hcols|]. by apply HG. }
  exists (Tensor (d0 :: n :: rest) (stack1_data d0 rest cols)).
  split; [|split; [reflexivity|split]].
  - eexists _, _. split; [exact Hrun|]. split; [lia|].
    rewrite (assoc_L (++) σ), (assoc_L (++) (σ ++ _)).
    replace (length σ + 3 + n)
      with (length ((σ ++ [Tensor (d0 :: rest) (residue L (range L) xs);
                Tensor (d0 :: rest) (replicate (length xs) 1%Z);
                Tensor (d0 :: rest) (replicate (length xs) 0%Z)]) ++ cols)).
    + apply lookup_fresh.
    + rewrite !length_app, Hcols. simpl. lia.
  - unfold wf. cbn [shape data numel].
    change (length (seq 0 d0 ≫= F) = d0 * (n * R)).
    rewrite (length_bind_uniform _ (n * R)) by done. by rewrite length_seq.
  - intros i j ks v Hi Hj Hks Hv. unfold get. cbn [shape data ravel numel].
    fold R. unfold stack1_data. fold R. fold G. fold F.
    pose proof (ravel_lt _ _ Hks) as Hk. fold R in Hk.
    set (k := ravel rest ks) in *.
    cbn [ravel] in Hv. fold R in Hv. fold k in Hv.
    change ((seq 0 d0 ≫= F) !! (i * (n * R) + (j * R + k))
            = peel_bits n (clamp 0 max_val v) !! j).
    rewrite (lookup_bind_chunk F (n * R) (seq 0 d0) i (j * R + k) i HF)
      by (by apply lookup_seq_lt || nia).
    destruct (lookup_lt_is_Some_2 colsZ j ltac:(lia)) as [colj Hcolj].
    unfold F.
    rewrite (lookup_bind_chunk (G i) R cols j k (Tensor (d0 :: rest) colj) (HG i Hi))
      by (done || (unfold cols; by rewrite list_lookup_fmap, Hcolj)).
    unfold G. cbn [data]. rewrite lookup_take_lt, lookup_drop by done.
    assert (Hx : xs !! (i * R + k) = Some (clamp 0 max_val v))
      by (unfold xs; by rewrite list_lookup_fmap, Hv).
    rewrite (columns_lookup L (range L) xs j colj _ _ Hcolj Hx).
    by rewrite EL, peel_range.
Qed.





Lemma range_nonpos L : (L ≤ 0)%Z → range L = [].
Proof. intros H. unfold range. by replace (Z.to_nat L) with 0 by lia. Qed.


